(** * anju-gujiguji: texture cache, particle store and simulation step

    A shallow embedding of [src/textureLoader.ts], [src/renderer.ts],
    the compute kernel of [src/shaders.ts], [src/voiceLoader.ts] and
    the constants of [src/config.ts], together with the properties of
    the design document that can be settled on it.

    Conventions of the embedding.
    - JavaScript runs one job at a time: the code between two [await]s is
      atomic.  Every [async] function is therefore cut at its [await]s
      into a synchronous prefix and continuations, each a total function
      on the state; an event of a trace runs one of them.  The scheduler
      is left free (any continuation that is ready may run next), which
      covers every order the browser's job queue can produce.
    - A promise created by [_loadTextureInternal] is a row of the table
      [promises]; a promise handle is its index.
    - [f32] quantities are rationals ([Q]); infinities and NaN are
      outside the model.  For the properties that do not depend on how
      an operation rounds (which buffer is bound, which element is
      written, the sign the reflection gives the velocity) the kernel is
      written with exact arithmetic: [simulate].  For the one that does
      (how close to the edge the clamp lands) every operation is
      followed by a rounding to [f32]: [simulate_fl], of which
      [simulate] is the instance with no rounding.  Counters and indices
      are [nat].
    - GPU buffers are lists of structs, one per array element;
      [queue.writeBuffer] outside the buffer is rejected by validation on
      the device timeline (no exception, no write), which is what stdpp's
      list insert does out of range. *)

From Stdlib Require Import QArith Qabs Qround Qminmax Qpower Lqa.
From stdpp Require Import gmap strings list fin_maps.

Local Open Scope nat_scope.

(** ** Counting rows of a table *)

Fixpoint count {A : Type} (f : A → bool) (l : list A) : nat :=
  match l with
  | [] => 0
  | x :: l' => (if f x then 1 else 0) + count f l'
  end.

(** ** [src/textureLoader.ts] *)

Record ImageBitmap := { width : nat; height : nat }.

Record LoadedTexture := { textureIndex : nat; bitmap : ImageBitmap }.

Inductive PromiseState :=
  | Pending
  | Fulfilled (t : LoadedTexture)
  | Rejected.

(** One activation of [_loadTextureInternal]: the [url] argument, the
    local [const textureIndex] read in the synchronous prefix, the state
    of the promise it returned, and whether the continuation of the
    [loadTexture] call that created it (the code after
    [await loadingPromise]) has run. *)
Record Load := {
  load_url : string;
  load_index : nat;
  load_state : PromiseState;
  load_settled : bool;
}.

Record TextureLoader := {
  maxTextures : nat;
  loadedTextures : gmap string LoadedTexture;
  loadingPromises : gmap string nat;
  nextTextureIndex : nat;
  (* layers of the GPU texture array written by copyExternalImageToTexture *)
  textureArray : gmap nat ImageBitmap;
  (* one row per call of _loadTextureInternal, that is per fetch issued *)
  promises : list Load;
}.

Definition newTextureLoader (maxTextures : nat) : TextureLoader :=
  {| maxTextures := maxTextures;
     loadedTextures := ∅;
     loadingPromises := ∅;
     nextTextureIndex := 0;
     textureArray := ∅;
     promises := [] |}.

Inductive Error :=
  | TextureArrayFull (max : nat)
  | LoadFailed (url : string).

(** What a caller of [loadTexture] holds after the synchronous prefix. *)
Inductive Awaited :=
  | AwValue (t : LoadedTexture)  (* line 40: returned from the cache *)
  | AwShared (p : nat)           (* line 45: the registered promise itself *)
  | AwThrown (e : Error)         (* line 50: texture array is full *)
  | AwOwner (p : nat).           (* line 60: started [p] and awaits it *)

Definition is_pending (st : PromiseState) : bool :=
  match st with Pending => true | _ => false end.
Definition is_fulfilled (st : PromiseState) : bool :=
  match st with Fulfilled _ => true | _ => false end.
Definition is_rejected (st : PromiseState) : bool :=
  match st with Rejected => true | _ => false end.

(** Lines 75-80: the synchronous prefix of [_loadTextureInternal]: read
    the counter, call [fetch], suspend.  The counter is not advanced. *)
Definition _loadTextureInternal (url : string) (s : TextureLoader)
  : nat * TextureLoader :=
  let textureIndex := nextTextureIndex s in
  (length (promises s),
   {| maxTextures := maxTextures s;
      loadedTextures := loadedTextures s;
      loadingPromises := loadingPromises s;
      nextTextureIndex := nextTextureIndex s;
      textureArray := textureArray s;
      promises := promises s ++
        [ {| load_url := url; load_index := textureIndex;
             load_state := Pending; load_settled := false |} ] |}).

(** Lines 37-60: the synchronous prefix of [loadTexture]. *)
Definition loadTexture (url : string) (s : TextureLoader)
  : Awaited * TextureLoader :=
  match loadedTextures s !! url with
  | Some t => (AwValue t, s)
  | None =>
    match loadingPromises s !! url with
    | Some p => (AwShared p, s)
    | None =>
      if decide (maxTextures s ≤ nextTextureIndex s)
      then (AwThrown (TextureArrayFull (maxTextures s)), s)
      else
        let '(loadingPromise, s1) := _loadTextureInternal url s in
        (AwOwner loadingPromise,
         {| maxTextures := maxTextures s1;
            loadedTextures := loadedTextures s1;
            loadingPromises := <[url := loadingPromise]> (loadingPromises s1);
            nextTextureIndex := nextTextureIndex s1;
            textureArray := textureArray s1;
            promises := promises s1 |})
    end
  end.

(** Lines 84-104: the continuation of [_loadTextureInternal] once
    [fetch], [blob] and [createImageBitmap] have succeeded with
    [imageBitmap]. *)
Definition _loadTextureInternal_resolved
    (p : nat) (imageBitmap : ImageBitmap) (s : TextureLoader) : TextureLoader :=
  match promises s !! p with
  | Some l =>
    if is_pending (load_state l) then
      let loadedTexture :=
        {| bitmap := imageBitmap; textureIndex := load_index l |} in
      {| maxTextures := maxTextures s;
         loadedTextures := <[load_url l := loadedTexture]> (loadedTextures s);
         loadingPromises := loadingPromises s;
         nextTextureIndex := S (nextTextureIndex s);
         textureArray := <[load_index l := imageBitmap]> (textureArray s);
         promises :=
           <[p := {| load_url := load_url l; load_index := load_index l;
                     load_state := Fulfilled loadedTexture;
                     load_settled := load_settled l |}]> (promises s) |}
    else s
  | None => s
  end.

(** Lines 105-108: the [catch] of [_loadTextureInternal]: log and
    rethrow; no field of the loader is written. *)
Definition _loadTextureInternal_rejected (p : nat) (s : TextureLoader)
  : TextureLoader :=
  match promises s !! p with
  | Some l =>
    if is_pending (load_state l) then
      {| maxTextures := maxTextures s;
         loadedTextures := loadedTextures s;
         loadingPromises := loadingPromises s;
         nextTextureIndex := nextTextureIndex s;
         textureArray := textureArray s;
         promises :=
           <[p := {| load_url := load_url l; load_index := load_index l;
                     load_state := Rejected;
                     load_settled := load_settled l |}]> (promises s) |}
    else s
  | None => s
  end.

(** Lines 60-68: the continuation of [loadTexture] after
    [await loadingPromise], on either branch of the [try]: the url is
    removed from [loadingPromises]. *)
Definition loadTexture_resumed (p : nat) (s : TextureLoader) : TextureLoader :=
  match promises s !! p with
  | Some l =>
    if is_pending (load_state l) || load_settled l then s
    else
      {| maxTextures := maxTextures s;
         loadedTextures := loadedTextures s;
         loadingPromises := delete (load_url l) (loadingPromises s);
         nextTextureIndex := nextTextureIndex s;
         textureArray := textureArray s;
         promises :=
           <[p := {| load_url := load_url l; load_index := load_index l;
                     load_state := load_state l;
                     load_settled := true |}]> (promises s) |}
  | None => s
  end.

(** The value or error a caller gets from its [await], when it is ready. *)
Definition settled_result (l : Load) : option (Error + LoadedTexture) :=
  match load_state l with
  | Pending => None
  | Fulfilled t => Some (inr t)
  | Rejected => Some (inl (LoadFailed (load_url l)))
  end.

Definition poll (a : Awaited) (s : TextureLoader)
  : option (Error + LoadedTexture) :=
  match a with
  | AwValue t => Some (inr t)
  | AwThrown e => Some (inl e)
  | AwShared p => l ← promises s !! p; settled_result l
  | AwOwner p =>
      l ← promises s !! p;
      if load_settled l then settled_result l else None
  end.

(** Traces of the loader on its own: a caller invokes [loadTexture], the
    fetch and decoding behind promise [p] succeed or fail, the
    [loadTexture] call that awaits [p] resumes.  [clear()] is called
    nowhere and is not an event. *)
Inductive LoaderEvent :=
  | Call (url : string)
  | FetchOk (p : nat) (imageBitmap : ImageBitmap)
  | FetchFail (p : nat)
  | Resume (p : nat).

Definition lstep (e : LoaderEvent) (s : TextureLoader) : TextureLoader :=
  match e with
  | Call url => (loadTexture url s).2
  | FetchOk p b => _loadTextureInternal_resolved p b s
  | FetchFail p => _loadTextureInternal_rejected p s
  | Resume p => loadTexture_resumed p s
  end.

Fixpoint lrun (evs : list LoaderEvent) (s : TextureLoader) : TextureLoader :=
  match evs with
  | [] => s
  | e :: evs' => lrun evs' (lstep e s)
  end.

Definition url_is (u : string) (l : Load) : bool := bool_decide (load_url l = u).

(** Number of [fetch] calls issued for [u], and how they ended. *)
Definition fetches (u : string) (s : TextureLoader) : nat :=
  count (url_is u) (promises s).
Definition inflight (u : string) (s : TextureLoader) : nat :=
  count (λ l, url_is u l && is_pending (load_state l)) (promises s).
Definition uploads (u : string) (s : TextureLoader) : nat :=
  count (λ l, url_is u l && is_fulfilled (load_state l)) (promises s).
Definition failures (u : string) (s : TextureLoader) : nat :=
  count (λ l, url_is u l && is_rejected (load_state l)) (promises s).

(** Indices handed to load attempts, in the order of the attempts. *)
Definition assigned (s : TextureLoader) : list nat := load_index <$> promises s.

(** Lines 111-153 of [src/textureLoader.ts]: the getters and [clear]. *)
Definition getLoadedTexture (url : string) (s : TextureLoader)
  : option LoadedTexture := loadedTextures s !! url.
Definition isLoaded (url : string) (s : TextureLoader) : bool :=
  bool_decide (is_Some (loadedTextures s !! url)).
Definition isLoading (url : string) (s : TextureLoader) : bool :=
  bool_decide (is_Some (loadingPromises s !! url)).
Definition getLoadedCount (s : TextureLoader) : nat := size (loadedTextures s).
Definition getNextTextureIndex (s : TextureLoader) : nat := nextTextureIndex s.

(** [clear()] empties the two maps and resets the counter; the texture
    array and the promises that are under way are not touched. *)
Definition clear (s : TextureLoader) : TextureLoader :=
  {| maxTextures := maxTextures s;
     loadedTextures := ∅;
     loadingPromises := ∅;
     nextTextureIndex := 0;
     textureArray := textureArray s;
     promises := promises s |}.

(** ** [src/config.ts] *)

Definition IMAGE_URLS : list string := [
  "/assets/images/normal_2-歯ギター_歯ギターあんじゅ.png";
  "/assets/images/normal-main_n.png";
  "/assets/images/normal-キャラ_杏珠.png";
  "/assets/images/normal-グループ 1_あんじゅ_あんじゅ.png";
  "/assets/images/normal-杏珠_目_２燃えてくる1.png";
  "/assets/images/normal-背景_アイコン_iconあんじゅ.png";
  "/assets/images/normal-背景_ステッカー_stkあんじゅ.png";
  "/assets/images/normal-背景_肩書_肩書あんじゅset_肩書あんじゅ.png";
  "/assets/images/ciallo.png" ]%string.

Definition MAX_PARTICLES : nat := Z.to_nat 10000.
Definition WORKGROUP_SIZE : nat := 64.
Definition TEXTURE_SIZE : nat := 1024.

(** Byte strides of one array element.  The buffers below are lists of
    elements, so element [i] stands for the bytes from [i * stride] to
    [(i + 1) * stride]. *)
Definition DYNAMIC_PARTICLE_STRIDE : nat := 24.
Definition STATIC_PARTICLE_STRIDE : nat := 32.

(** ** The compute kernel of [src/shaders.ts] *)

Record vec2 := { vec_x : Q; vec_y : Q }.

Record DynamicParticle := {
  pos : vec2;
  vel : vec2;
  rotation : Q;
  padding : Q;
}.

Record StaticParticle := {
  scale : Q;
  aspectRatio : Q;
  angularVel : Q;
  texIndex : nat;
  uvScale : vec2;
}.

(** The fields of [Uniforms] carry a prefix: [particleCount] and
    [aspectRatio] are also a field of the renderer and of
    [StaticParticle]. *)
Record Uniforms := {
  u_deltaTime : Q;
  u_particleCount : nat;
  u_aspectRatio : Q;
}.

Definition vec2_zero : vec2 := {| vec_x := 0; vec_y := 0 |}.
Definition DynamicParticle_zero : DynamicParticle :=
  {| pos := vec2_zero; vel := vec2_zero; rotation := 0; padding := 0 |}.
Definition StaticParticle_zero : StaticParticle :=
  {| scale := 0; aspectRatio := 0; angularVel := 0; texIndex := 0;
     uvScale := vec2_zero |}.

Definition half_height (s : StaticParticle) : Q := (scale s * 0.5)%Q.
Definition half_width (s : StaticParticle) : Q := (half_height s * aspectRatio s)%Q.

(** [d_in.pos + d_in.vel * uniforms.deltaTime] *)
Definition integrate (uniforms : Uniforms) (d_in : DynamicParticle) : vec2 :=
  {| vec_x := (vec_x (pos d_in) + vec_x (vel d_in) * u_deltaTime uniforms)%Q;
     vec_y := (vec_y (pos d_in) + vec_y (vel d_in) * u_deltaTime uniforms)%Q |}.

(** One axis of the boundary test of [main] (lines 211-227): position
    and velocity along the axis, half extent and bound; the result is
    the pair written back. *)
Definition reflect (p v half bound : Q) : Q * Q :=
  if Qlt_le_dec (p - half) (- bound) then ((- bound + half)%Q, Qabs v)
  else if Qlt_le_dec bound (p + half) then ((bound - half)%Q, (- Qabs v)%Q)
  else (p, v).

(** Lines 194-233 of [main], for the particle at one index. *)
Definition simulate (uniforms : Uniforms) (d_in : DynamicParticle)
    (s : StaticParticle) : DynamicParticle :=
  let pos0 := integrate uniforms d_in in
  let vel0 := vel d_in in
  let rotation' := (rotation d_in + angularVel s * u_deltaTime uniforms)%Q in
  let bound_x := u_aspectRatio uniforms in
  let bound_y := 1%Q in
  let rx := reflect (vec_x pos0) (vec_x vel0) (half_width s) bound_x in
  let ry := reflect (vec_y pos0) (vec_y vel0) (half_height s) bound_y in
  {| pos := {| vec_x := rx.1; vec_y := ry.1 |};
     vel := {| vec_x := rx.2; vec_y := ry.2 |};
     rotation := rotation';
     padding := 0 |}.

(** *** The kernel in [f32]

    Rounding to binary32 (24 bits of precision, gradual underflow below
    [2^-126], round to nearest, ties to even), on rationals; overflow to
    infinity is outside the model. *)

(** [mag x] is the [e] with [2^(e-1) <= |x| < 2^e], for [x] not zero. *)
Definition mag (x : Q) : Z :=
  let l := (Z.log2 (Z.abs (Qnum x)) - Z.log2 (Zpos (Qden x)))%Z in
  if Qle_bool (2 ^ l) (Qabs x) then (l + 1)%Z else l.

Definition round_half_even (m : Q) : Z :=
  let f := Qfloor m in
  match (m - inject_Z f ?= 1 # 2)%Q with
  | Lt => f
  | Gt => (f + 1)%Z
  | Eq => if Z.even f then f else (f + 1)%Z
  end.

(** Exponent of the unit in the last place. *)
Definition ulp_exp (x : Q) : Z := Z.max (mag x - 24) (-149).

Definition f32 (x : Q) : Q :=
  let q := (2 ^ ulp_exp x)%Q in
  Qred (inject_Z (round_half_even (x / q)) * q).

(** WGSL leaves the rounding of [+], [-] and [*] to the implementation:
    the result is one of the two [f32] values next to the exact one, and
    a subnormal result may be flushed to zero.  The kernel is therefore
    written over a rounding [rnd], applied after every operation;
    negation, [abs] and copies are exact. *)
Section rounded_kernel.
Variable rnd : Q → Q.

Definition half_height_fl (s : StaticParticle) : Q := rnd (scale s * 0.5).
Definition half_width_fl (s : StaticParticle) : Q :=
  rnd (half_height_fl s * aspectRatio s).

Definition integrate_fl (uniforms : Uniforms) (d_in : DynamicParticle) : vec2 :=
  {| vec_x := rnd (vec_x (pos d_in) + rnd (vec_x (vel d_in) * u_deltaTime uniforms));
     vec_y := rnd (vec_y (pos d_in) + rnd (vec_y (vel d_in) * u_deltaTime uniforms)) |}.

Definition reflect_fl (p v half bound : Q) : Q * Q :=
  if Qlt_le_dec (rnd (p - half)) (- bound) then (rnd (- bound + half), Qabs v)
  else if Qlt_le_dec bound (rnd (p + half)) then (rnd (bound - half), (- Qabs v)%Q)
  else (p, v).

Definition simulate_fl (uniforms : Uniforms) (d_in : DynamicParticle)
    (s : StaticParticle) : DynamicParticle :=
  let pos0 := integrate_fl uniforms d_in in
  let vel0 := vel d_in in
  let rotation' := rnd (rotation d_in + rnd (angularVel s * u_deltaTime uniforms)) in
  let bound_x := u_aspectRatio uniforms in
  let bound_y := 1%Q in
  let rx := reflect_fl (vec_x pos0) (vec_x vel0) (half_width_fl s) bound_x in
  let ry := reflect_fl (vec_y pos0) (vec_y vel0) (half_height_fl s) bound_y in
  {| pos := {| vec_x := rx.1; vec_y := ry.1 |};
     vel := {| vec_x := rx.2; vec_y := ry.2 |};
     rotation := rotation';
     padding := 0 |}.

End rounded_kernel.

(** The entry point [main] for invocation [index].  A read past the end
    of a runtime-sized array yields a zero value and a write past the end
    is discarded (an implementation may also redirect such an access to
    an element inside the array; it can only arise once [particleCount]
    exceeds the length of the buffers). *)
Definition main (uniforms : Uniforms) (dynamic_in : list DynamicParticle)
    (static_data : list StaticParticle) (index : nat)
    (dynamic_out : list DynamicParticle) : list DynamicParticle :=
  if decide (u_particleCount uniforms ≤ index) then dynamic_out
  else
    let d_in := default DynamicParticle_zero (dynamic_in !! index) in
    let s := default StaticParticle_zero (static_data !! index) in
    <[index := simulate uniforms d_in s]> dynamic_out.

(** [dispatchWorkgroups(workgroups)] with [@workgroup_size(64)]: the
    invocations write disjoint elements and read only [dynamic_in] and
    [static_data], so running them in index order is one of the
    equivalent schedules. *)
Definition dispatchWorkgroups (workgroups : nat) (uniforms : Uniforms)
    (dynamic_in : list DynamicParticle) (static_data : list StaticParticle)
    (dynamic_out : list DynamicParticle) : list DynamicParticle :=
  foldl (λ out index, main uniforms dynamic_in static_data index out)
        dynamic_out (seq 0 (workgroups * WORKGROUP_SIZE)).

(** ** [src/renderer.ts]

    The particle store, [addParticle] and [renderLoop].  The FPS overlay,
    the clear colour and the configuration of the canvas only concern
    what is displayed and are left out; the canvas size enters through
    the arguments of a frame. *)

(** Element [i] of a two-element tuple ([[GPUBuffer, GPUBuffer]]). *)
Definition tuple_get {A : Type} (i : nat) (t : A * A) : A :=
  match i with 0 => t.1 | _ => t.2 end.
Definition tuple_set {A : Type} (i : nat) (a : A) (t : A * A) : A * A :=
  match i with 0 => (a, t.2) | _ => (t.1, a) end.

(** A compute bind group: which of the two dynamic buffers is bound at
    binding 0 ([dynamic_in], read-only storage) and at binding 1
    ([dynamic_out], storage).  Bindings 2 and 3 are the static buffer
    (read-only storage) and the uniforms in both groups. *)
Record ComputeBindGroup := { binding0 : nat; binding1 : nat }.

Definition computeBindGroups : ComputeBindGroup * ComputeBindGroup :=
  ({| binding0 := 0; binding1 := 1 |}, {| binding0 := 1; binding1 := 0 |}).

Inductive Command :=
  | ComputePass (bindGroup : ComputeBindGroup) (workgroups : nat)
  | RenderPass (draw : option (nat * nat)).
      (* vertex buffer 0 = dynamicBuffers[i], and the instance count *)

(** An activation of [addParticle]: suspended at its [await] with the
    loop counter [cnt] (already decremented), or finished; [inr ()]
    stands for a fulfilled promise and [inl e] for a rejected one. *)
Inductive TaskStatus :=
  | Suspended (cnt : Z) (a : Awaited)
  | Done (r : Error + unit).

(** The [Math.random()] results that one particle consumes, and the one
    that picks the image of the next round; [cos]/[sin] of the angle are
    given with them. *)
Record SpawnRandom := {
  rnd_speed : Q;
  rnd_cos : Q;
  rnd_sin : Q;
  rnd_angular : Q;
  rnd_image : Q;
}.

Record WebGPURenderer := {
  particleCount : nat;
  textureLoader : TextureLoader;
  frame : nat;
  lastTime : Q;
  dynamicBuffers : list DynamicParticle * list DynamicParticle;
  staticBuffer : list StaticParticle;
  uniformsBuffer : Uniforms;
  (* the count shown on the button *)
  buttonText : nat;
  (* the errors passed to console.error by addParticle *)
  console : list Error;
  (* one row per call of addParticle that passed the limit test *)
  tasks : list TaskStatus;
  (* the instances of the last draw call *)
  drawn : list (DynamicParticle * StaticParticle);
}.

(** State after [init()] and [start()] at time [now]. *)
Definition newRenderer (now : Q) : WebGPURenderer :=
  {| particleCount := 0;
     textureLoader := newTextureLoader (length IMAGE_URLS);
     frame := 0;
     lastTime := now;
     dynamicBuffers := (replicate MAX_PARTICLES DynamicParticle_zero,
                        replicate MAX_PARTICLES DynamicParticle_zero);
     staticBuffer := replicate MAX_PARTICLES StaticParticle_zero;
     uniformsBuffer := {| u_deltaTime := 0; u_particleCount := 0; u_aspectRatio := 0 |};
     buttonText := 0;
     console := [];
     tasks := [];
     drawn := [] |}.

Definition set_loader_task (ld : TextureLoader) (tid : nat) (st : TaskStatus)
    (s : WebGPURenderer) : WebGPURenderer :=
  {| particleCount := particleCount s;
     textureLoader := ld;
     frame := frame s;
     lastTime := lastTime s;
     dynamicBuffers := dynamicBuffers s;
     staticBuffer := staticBuffer s;
     uniformsBuffer := uniformsBuffer s;
     buttonText := buttonText s;
     console := console s;
     tasks := <[tid := st]> (tasks s);
     drawn := drawn s |}.

Definition set_loader (ld : TextureLoader) (s : WebGPURenderer) : WebGPURenderer :=
  {| particleCount := particleCount s;
     textureLoader := ld;
     frame := frame s;
     lastTime := lastTime s;
     dynamicBuffers := dynamicBuffers s;
     staticBuffer := staticBuffer s;
     uniformsBuffer := uniformsBuffer s;
     buttonText := buttonText s;
     console := console s;
     tasks := tasks s;
     drawn := drawn s |}.

Definition push_task (st : TaskStatus) (s : WebGPURenderer) : WebGPURenderer :=
  {| particleCount := particleCount s;
     textureLoader := textureLoader s;
     frame := frame s;
     lastTime := lastTime s;
     dynamicBuffers := dynamicBuffers s;
     staticBuffer := staticBuffer s;
     uniformsBuffer := uniformsBuffer s;
     buttonText := buttonText s;
     console := console s;
     tasks := tasks s ++ [st];
     drawn := drawn s |}.

(** Storing a counter through a [Uint32Array] view. *)
Definition u32 (n : nat) : nat := Z.to_nat (Z.of_nat n mod 2 ^ 32)%Z.

(** [Math.ceil(a / b)] on counters. *)
Definition Math_ceil_div (a b : nat) : nat := (a + (b - 1)) / b.

(** [Math.round] and [Math.floor]. *)
Definition Math_round (q : Q) : Z := Qfloor (q + 0.5).
Definition Math_floor (q : Q) : Z := Qfloor q.

(** Lines 290-295: the loop test [cnt-- > 0], the choice of the url and
    the call of [loadTexture], up to the [await]. *)
Definition addParticle_loop (cnt : Z) (rnd : Q) (tid : nat)
    (s : WebGPURenderer) : WebGPURenderer :=
  if (0 <? cnt)%Z then
    let imageIndex := Z.to_nat (Math_floor (rnd * inject_Z (Z.of_nat (length IMAGE_URLS)))) in
    let url := default "undefined"%string (IMAGE_URLS !! imageIndex) in
    let '(a, ld) := loadTexture url (textureLoader s) in
    set_loader_task ld tid (Suspended (cnt - 1) a) s
  else
    set_loader_task (textureLoader s) tid (Done (inr ())) s.

(** Lines 286-295: the synchronous prefix of [addParticle].  The row of
    the new activation is appended and then filled in by the first round
    of the loop. *)
Definition addParticle (rnd_cnt rnd_url : Q) (s : WebGPURenderer)
  : WebGPURenderer :=
  if decide (MAX_PARTICLES ≤ particleCount s) then s
  else
    let cnt := Math_round (rnd_cnt * 3 + 2.5) in
    addParticle_loop cnt rnd_url (length (tasks s))
      (push_task (Done (inr ())) s).

(** Lines 297-318: the two arrays filled for one particle. *)
Definition dynamicData (rnd : SpawnRandom) : DynamicParticle :=
  let velSpeed := ((rnd_speed rnd + 1) * 0.5)%Q in
  {| pos := {| vec_x := 0; vec_y := 0 |};
     vel := {| vec_x := (rnd_cos rnd * velSpeed)%Q;
               vec_y := (rnd_sin rnd * velSpeed)%Q |};
     rotation := 0;
     padding := 0 |}.

Definition staticData (rnd : SpawnRandom) (texture : LoadedTexture)
  : StaticParticle :=
  let w := inject_Z (Z.of_nat (width (bitmap texture))) in
  let h := inject_Z (Z.of_nat (height (bitmap texture))) in
  let size := inject_Z (Z.of_nat TEXTURE_SIZE) in
  {| scale := 0.3;
     aspectRatio := (w / h)%Q;
     angularVel := ((rnd_angular rnd - 0.5) * 5.0)%Q;
     texIndex := u32 (textureIndex texture);
     uvScale := {| vec_x := (w / size)%Q; vec_y := (h / size)%Q |} |}.

(** Lines 297-340: the body of the [try] after the [await] returned
    [texture]. *)
Definition spawn (rnd : SpawnRandom) (texture : LoadedTexture)
    (s : WebGPURenderer) : WebGPURenderer :=
  {| particleCount := S (particleCount s);
     textureLoader := textureLoader s;
     frame := frame s;
     lastTime := lastTime s;
     dynamicBuffers :=
       (<[particleCount s := dynamicData rnd]> (dynamicBuffers s).1,
        <[particleCount s := dynamicData rnd]> (dynamicBuffers s).2);
     staticBuffer := <[particleCount s := staticData rnd texture]> (staticBuffer s);
     uniformsBuffer := uniformsBuffer s;
     buttonText := S (particleCount s);
     console := console s;
     tasks := tasks s;
     drawn := drawn s |}.

(** Lines 341-343: the [catch]: [console.error], nothing else. *)
Definition spawn_failed (error : Error) (s : WebGPURenderer) : WebGPURenderer :=
  {| particleCount := particleCount s;
     textureLoader := textureLoader s;
     frame := frame s;
     lastTime := lastTime s;
     dynamicBuffers := dynamicBuffers s;
     staticBuffer := staticBuffer s;
     uniformsBuffer := uniformsBuffer s;
     buttonText := buttonText s;
     console := console s ++ [error];
     tasks := tasks s;
     drawn := drawn s |}.

(** The continuation of [addParticle] after [await loadTexture(url)],
    followed by the next round of the loop up to its [await]. *)
Definition addParticle_resumed (tid : nat) (rnd : SpawnRandom)
    (s : WebGPURenderer) : WebGPURenderer :=
  match tasks s !! tid with
  | Some (Suspended cnt a) =>
    match poll a (textureLoader s) with
    | Some (inr texture) => addParticle_loop cnt (rnd_image rnd) tid (spawn rnd texture s)
    | Some (inl error) => addParticle_loop cnt (rnd_image rnd) tid (spawn_failed error s)
    | None => s
    end
  | _ => s
  end.

(** Lines 374-400: the passes recorded by [renderLoop]. *)
Definition encode (s : WebGPURenderer) : list Command :=
  (if decide (0 < particleCount s)
   then [ComputePass (tuple_get (frame s mod 2) computeBindGroups)
                     (Math_ceil_div (particleCount s) WORKGROUP_SIZE)]
   else []) ++
  [RenderPass (if decide (0 < particleCount s)
               then Some ((frame s + 1) mod 2, particleCount s)
               else None)].

(** Execution of one recorded pass by the queue.  The compute pass
    writes the buffer bound at binding 1 and no other; the render pass
    reads vertex buffer 0 and the static buffer, one instance per
    particle. *)
Definition exec (c : Command) (s : WebGPURenderer) : WebGPURenderer :=
  match c with
  | ComputePass g workgroups =>
    let out := dispatchWorkgroups workgroups (uniformsBuffer s)
                 (tuple_get (binding0 g) (dynamicBuffers s)) (staticBuffer s)
                 (tuple_get (binding1 g) (dynamicBuffers s)) in
    {| particleCount := particleCount s;
       textureLoader := textureLoader s;
       frame := frame s;
       lastTime := lastTime s;
       dynamicBuffers := tuple_set (binding1 g) out (dynamicBuffers s);
       staticBuffer := staticBuffer s;
       uniformsBuffer := uniformsBuffer s;
       buttonText := buttonText s;
       console := console s;
       tasks := tasks s;
       drawn := drawn s |}
  | RenderPass draw =>
    {| particleCount := particleCount s;
       textureLoader := textureLoader s;
       frame := frame s;
       lastTime := lastTime s;
       dynamicBuffers := dynamicBuffers s;
       staticBuffer := staticBuffer s;
       uniformsBuffer := uniformsBuffer s;
       buttonText := buttonText s;
       console := console s;
       tasks := tasks s;
       drawn :=
         match draw with
         | Some (i, instances) =>
             take instances (zip (tuple_get i (dynamicBuffers s)) (staticBuffer s))
         | None => []
         end |}
  end.

Definition submit (cs : list Command) (s : WebGPURenderer) : WebGPURenderer :=
  foldl (λ s c, exec c s) s cs.

(** Lines 347-370: time step and uniforms of one frame.  (With
    [clientHeight = 0] the code computes [Infinity] or [NaN] for the
    aspect ratio, which is outside the model.) *)
Definition frame_uniforms (now clientWidth clientHeight : Q)
    (s : WebGPURenderer) : Uniforms :=
  {| u_deltaTime :=
       if Qlt_le_dec 0 (lastTime s)
       then Qmin 0.1 ((now - lastTime s) / 1000.0)
       else 0.016%Q;
     u_particleCount := u32 (particleCount s);
     u_aspectRatio := (clientWidth / clientHeight)%Q |}.

(** [renderLoop], one call. *)
Definition renderLoop (now clientWidth clientHeight : Q)
    (s : WebGPURenderer) : WebGPURenderer :=
  let s1 :=
    {| particleCount := particleCount s;
       textureLoader := textureLoader s;
       frame := frame s;
       lastTime := now;
       dynamicBuffers := dynamicBuffers s;
       staticBuffer := staticBuffer s;
       uniformsBuffer := frame_uniforms now clientWidth clientHeight s;
       buttonText := buttonText s;
       console := console s;
       tasks := tasks s;
       drawn := drawn s |} in
  let s2 := submit (encode s1) s1 in
  {| particleCount := particleCount s2;
     textureLoader := textureLoader s2;
     frame := S (frame s2);
     lastTime := lastTime s2;
     dynamicBuffers := dynamicBuffers s2;
     staticBuffer := staticBuffer s2;
     uniformsBuffer := uniformsBuffer s2;
     buttonText := buttonText s2;
     console := console s2;
     tasks := tasks s2;
     drawn := drawn s2 |}.

(** Traces of the whole page: a click or timer tick calls [addParticle],
    an activation of [addParticle] resumes from its [await], a fetch
    ends, a [loadTexture] call resumes, the browser calls [renderLoop].
    An event that is not ready (a promise still pending, a row that does
    not exist) leaves the state as it is. *)
Inductive Event :=
  | EvAddParticle (rnd_cnt rnd_url : Q)
  | EvAddParticleResume (tid : nat) (rnd : SpawnRandom)
  | EvFetchOk (p : nat) (imageBitmap : ImageBitmap)
  | EvFetchFail (p : nat)
  | EvLoadTextureResume (p : nat)
  | EvFrame (now clientWidth clientHeight : Q).

Definition step (e : Event) (s : WebGPURenderer) : WebGPURenderer :=
  match e with
  | EvAddParticle rc ru => addParticle rc ru s
  | EvAddParticleResume tid rnd => addParticle_resumed tid rnd s
  | EvFetchOk p b => set_loader (_loadTextureInternal_resolved p b (textureLoader s)) s
  | EvFetchFail p => set_loader (_loadTextureInternal_rejected p (textureLoader s)) s
  | EvLoadTextureResume p => set_loader (loadTexture_resumed p (textureLoader s)) s
  | EvFrame now w h => renderLoop now w h s
  end.

Fixpoint run (evs : list Event) (s : WebGPURenderer) : WebGPURenderer :=
  match evs with
  | [] => s
  | e :: evs' => run evs' (step e s)
  end.

(** ** [src/voiceLoader.ts]

    The class keeps a [Map] from audio index to decoded audio (kept here
    in insertion order, the order [keys()] lists it in), the queue of
    indices still to be played and the set of indices being loaded.
    [loadAudio] is cut at its [await]s: the prefix that registers the
    index in [loading], and the two continuations, the one after
    [decodeAudioData] has resolved and the one after [fetch] or the
    decoding has thrown; both end with the [finally] block.  A fetch is
    identified by its index: [loading] holds an index exactly while a
    [loadAudio] of it is under way.  The value of
    [Math.floor(Math.random() * n)] is an input. *)
(** The voice constants of [src/config.ts]. *)
Definition VOICE_TOTAL_COUNT : nat := 128.
Definition VOICE_INITIAL_LOAD : nat := 10.

Module voiceLoader.

Record AudioBuffer := { audio_length : nat }.

Record VoiceLoader := {
  totalCount : nat;
  initialLoadCount : nat;
  loadedAudios : list (nat * AudioBuffer);
  pendingQueue : list nat;
  loading : gset nat;
}.

Definition Map_keys (m : list (nat * AudioBuffer)) : list nat := m.*1.

Definition Map_has (k : nat) (m : list (nat * AudioBuffer)) : bool :=
  bool_decide (k ∈ Map_keys m).

Fixpoint Map_get (k : nat) (m : list (nat * AudioBuffer)) : option AudioBuffer :=
  match m with
  | [] => None
  | (k', v) :: m' => if decide (k' = k) then Some v else Map_get k m'
  end.

(** [set] keeps the place of a key that is present and appends a new
    one. *)
Fixpoint Map_set (k : nat) (v : AudioBuffer) (m : list (nat * AudioBuffer))
  : list (nat * AudioBuffer) :=
  match m with
  | [] => [(k, v)]
  | (k', v') :: m' =>
      if decide (k' = k) then (k, v) :: m' else (k', v') :: Map_set k v m'
  end.

(** [getRandomIndices(max, count)]; [randomIdx i] is the index drawn in
    round [i].  An index outside [available] reads [undefined] and
    [splice] removes nothing. *)
Fixpoint getRandomIndices_loop (randomIdx : nat → nat) (i count : nat)
    (available : list nat) (indices : list (option nat)) : list (option nat) :=
  match count with
  | 0 => indices
  | S count' =>
      getRandomIndices_loop randomIdx (S i) count'
        (delete (randomIdx i) available)
        (indices ++ [available !! randomIdx i])
  end.

Definition getRandomIndices (randomIdx : nat → nat) (max count : nat)
  : list (option nat) :=
  getRandomIndices_loop randomIdx 0 count (seq 0 max) [].

(** [loadAudio(index)] up to its first [await]. *)
Definition loadAudio (index : nat) (s : VoiceLoader) : VoiceLoader :=
  if Map_has index (loadedAudios s) || bool_decide (index ∈ loading s) then s
  else
    {| totalCount := totalCount s;
       initialLoadCount := initialLoadCount s;
       loadedAudios := loadedAudios s;
       pendingQueue := pendingQueue s;
       loading := {[index]} ∪ loading s |}.

(** The rest of the [try] block and the [finally], once the audio is
    decoded. *)
Definition loadAudio_decoded (index : nat) (audioBuffer : AudioBuffer)
    (s : VoiceLoader) : VoiceLoader :=
  if bool_decide (index ∈ loading s) then
    {| totalCount := totalCount s;
       initialLoadCount := initialLoadCount s;
       loadedAudios := Map_set index audioBuffer (loadedAudios s);
       pendingQueue := pendingQueue s ++ [index];
       loading := loading s ∖ {[index]} |}
  else s.

(** The [catch] ([console.error]) and the [finally]. *)
Definition loadAudio_failed (index : nat) (s : VoiceLoader) : VoiceLoader :=
  if bool_decide (index ∈ loading s) then
    {| totalCount := totalCount s;
       initialLoadCount := initialLoadCount s;
       loadedAudios := loadedAudios s;
       pendingQueue := pendingQueue s;
       loading := loading s ∖ {[index]} |}
  else s.

(** The constructor, with [loadInitialAudios] up to its [await]: the
    [map] starts one [loadAudio] per index drawn.  ([undefined] is not
    drawn as long as the draws fall inside [available], see
    [getRandomIndices_distinct]; it starts no load here.) *)
Definition new (totalCount initialLoadCount : nat) (randomIdx : nat → nat)
  : VoiceLoader :=
  let n := initialLoadCount `min` totalCount in
  foldl (λ s index, match index with Some i => loadAudio i s | None => s end)
        {| totalCount := totalCount;
           initialLoadCount := n;
           loadedAudios := [];
           pendingQueue := [];
           loading := ∅ |}
        (getRandomIndices randomIdx totalCount n).

Definition unloaded (s : VoiceLoader) (i : nat) : bool :=
  negb (Map_has i (loadedAudios s)) && negb (bool_decide (i ∈ loading s)).

(** [tryLoadNextAudio()] up to its [await]; nothing follows it. *)
Definition tryLoadNextAudio (s : VoiceLoader) : VoiceLoader :=
  if decide (totalCount s ≤ length (loadedAudios s)) then s
  else
    match filter (λ i, unloaded s i = true) (seq 0 (totalCount s)) with
    | i :: _ => loadAudio i s
    | [] => s
    end.

Definition refillQueue (s : VoiceLoader) : VoiceLoader :=
  if decide (length (loadedAudios s) = 0) then s
  else
    {| totalCount := totalCount s;
       initialLoadCount := initialLoadCount s;
       loadedAudios := loadedAudios s;
       pendingQueue := Map_keys (loadedAudios s);
       loading := loading s |}.

Definition consumeAudio (randomIdx : nat) (s : VoiceLoader)
  : option AudioBuffer * VoiceLoader :=
  let s1 := if decide (length (pendingQueue s) = 0) then refillQueue s else s in
  if decide (length (pendingQueue s1) = 0) then (None, s1)
  else
    let audioIndex := pendingQueue s1 !! randomIdx in
    let s2 :=
      {| totalCount := totalCount s1;
         initialLoadCount := initialLoadCount s1;
         loadedAudios := loadedAudios s1;
         pendingQueue := delete randomIdx (pendingQueue s1);
         loading := loading s1 |} in
    (audioIndex ≫= λ i, Map_get i (loadedAudios s1), tryLoadNextAudio s2).

Definition getLoadedCount (s : VoiceLoader) : nat := length (loadedAudios s).
Definition getPendingCount (s : VoiceLoader) : nat := length (pendingQueue s).

(** What can happen to a loader: [consumeAudio()] is called (with the
    index it draws), a load under way completes, or fails. *)
Inductive VoiceEvent :=
  | Consume (randomIdx : nat)
  | Decoded (index : nat) (audioBuffer : AudioBuffer)
  | Failed (index : nat).

Definition step (e : VoiceEvent) (s : VoiceLoader) : VoiceLoader :=
  match e with
  | Consume randomIdx => (consumeAudio randomIdx s).2
  | Decoded index audioBuffer => loadAudio_decoded index audioBuffer s
  | Failed index => loadAudio_failed index s
  end.

Definition run (evs : list VoiceEvent) (s : VoiceLoader) : VoiceLoader :=
  foldl (λ s e, step e s) s evs.

End voiceLoader.

(** ** Properties and invariants stated on the embedding *)

(** What holds of the loader after any trace.  [promises] and
    [loadingPromises] agree on the rows whose [loadTexture] call has not
    resumed; a pending row is such a row, its url is not yet loaded and
    its index is at most the counter; every fulfilled row is recorded in
    [loadedTextures], every recorded texture comes from a fulfilled row
    and lies below the counter; no url has two fulfilled rows. *)
Record loader_inv (s : TextureLoader) : Prop := {
  inv_registered : ∀ u p, loadingPromises s !! u = Some p →
    ∃ l, promises s !! p = Some l ∧ load_url l = u ∧ load_settled l = false;
  inv_unsettled : ∀ p l, promises s !! p = Some l → load_settled l = false →
    loadingPromises s !! load_url l = Some p;
  inv_pending : ∀ p l, promises s !! p = Some l → load_state l = Pending →
    load_settled l = false ∧ loadedTextures s !! load_url l = None
    ∧ load_index l ≤ nextTextureIndex s;
  inv_fulfilled : ∀ p l t, promises s !! p = Some l → load_state l = Fulfilled t →
    loadedTextures s !! load_url l = Some t;
  inv_loaded : ∀ u t, loadedTextures s !! u = Some t →
    textureIndex t < nextTextureIndex s ∧
    ∃ p l, promises s !! p = Some l ∧ load_url l = u ∧ load_state l = Fulfilled t;
  inv_unique : ∀ p q l1 l2 t1 t2, promises s !! p = Some l1 → promises s !! q = Some l2 →
    load_url l1 = load_url l2 →
    load_state l1 = Fulfilled t1 → load_state l2 = Fulfilled t2 → p = q;
}.

(** Bounds kept by the loader: every index read by a load, and every
    layer written, lies inside the texture array; a fulfilled promise
    carries the index its load had read, and that layer has been
    written; the cache holds as many textures as the counter says. *)
Record loader_bounds (s : TextureLoader) : Prop := {
  bnd_index : ∀ p l, promises s !! p = Some l → load_index l < maxTextures s;
  bnd_fulfilled : ∀ p l t, promises s !! p = Some l →
    load_state l = Fulfilled t → textureIndex t = load_index l;
  bnd_layers : ∀ i b, textureArray s !! i = Some b → i < maxTextures s;
  bnd_uploaded : ∀ p l t, promises s !! p = Some l →
    load_state l = Fulfilled t → is_Some (textureArray s !! load_index l);
  bnd_size : size (loadedTextures s) = nextTextureIndex s;
}.


(** No index is handed to two load attempts. *)
Definition never_reassigned (s : TextureLoader) : Prop := NoDup (assigned s).

(** Two different urls are never recorded with the same index. *)
Definition distinct_slots (s : TextureLoader) : Prop :=
  ∀ u1 u2 t1 t2, u1 ≠ u2 →
    loadedTextures s !! u1 = Some t1 → loadedTextures s !! u2 = Some t2 →
    textureIndex t1 ≠ textureIndex t2.

(** The output of the simulation step of the frame that starts in [s]. *)
Definition step_output (now clientWidth clientHeight : Q) (s : WebGPURenderer)
  : list DynamicParticle :=
  dispatchWorkgroups (Math_ceil_div (particleCount s) WORKGROUP_SIZE)
    (frame_uniforms now clientWidth clientHeight s)
    (tuple_get (frame s mod 2) (dynamicBuffers s)) (staticBuffer s)
    (tuple_get ((frame s + 1) mod 2) (dynamicBuffers s)).

(** What WGSL grants for one rounded operation: a relative error of one
    unit in the last place, [2^-23], and an absolute one of [2^-126]
    where the result underflows. *)
Definition f32_eps : Q := 1 # 8388608.
Definition f32_tiny : Q := 2 ^ (-126).

Definition rounds_to_f32 (rnd : Q → Q) : Prop :=
  ∀ x : Q, (Qabs (rnd x - x) <= f32_eps * Qabs x + f32_tiny)%Q.

(** How far one rounded comparison or assignment against [bound] can
    be off. *)
Definition slack (bound : Q) : Q :=
  ((f32_eps * bound + f32_tiny) / (1 - f32_eps))%Q.

Definition no_slack (bound : Q) : Q := 0.

(** [x] lies in [[-bound, bound]] shrunk by [half] on each side, up to
    [tol]. *)
Definition inside_axis (bound half tol x : Q) : Prop :=
  (- bound + half - tol <= x ∧ x <= bound - half + tol)%Q.

(** The particle lies in the viewport [[-a, a] x [-1, 1]] shrunk by its
    half extent on each side, up to [tol] of the bound of the axis. *)
Definition inside_viewport_fl (rnd : Q → Q) (tol : Q → Q) (u : Uniforms)
    (st : StaticParticle) (d : DynamicParticle) : Prop :=
  inside_axis (u_aspectRatio u) (half_width_fl rnd st)
              (tol (u_aspectRatio u)) (vec_x (pos d))
  ∧ inside_axis 1 (half_height_fl rnd st) (tol 1%Q) (vec_y (pos d)).

(** The particle store and what a frame reads or writes besides it. *)
Definition particle_data (s : WebGPURenderer) :=
  (particleCount s, dynamicBuffers s, staticBuffer s, uniformsBuffer s,
   frame s, lastTime s, drawn s, buttonText s).

(** A trace made of frames only: time, client width, client height. *)
Definition frames (fs : list (Q * Q * Q)) : list Event :=
  (λ f, EvFrame f.1.1 f.1.2 f.2) <$> fs.

Definition is_frame (e : Event) : bool :=
  match e with EvFrame _ _ _ => true | _ => false end.

(** The promise returned by an [addParticle] call was rejected. *)
Definition surfaced_to_caller (st : TaskStatus) : Prop := ∃ e, st = Done (inl e).

Definition never_rejected (s : WebGPURenderer) : Prop :=
  Forall (λ st, ¬ surfaced_to_caller st) (tasks s).

Definition first_url : string := default ""%string (IMAGE_URLS !! 0).

(** The state in which clicks only hit the cache: [n] particles, the first
    image loaded as [t], [k] calls of [addParticle] so far. *)
Definition cached (t : LoadedTexture) (n k : nat) (s : WebGPURenderer) : Prop :=
  particleCount s = n
  ∧ loadedTextures (textureLoader s) !! first_url = Some t
  ∧ length (tasks s) = k
  ∧ length (staticBuffer s) = MAX_PARTICLES.

(** ** Concrete data and runs *)

Definition bmp_a : ImageBitmap := {| width := 512; height := 256 |}.
Definition bmp_b : ImageBitmap := {| width := 300; height := 300 |}.

(** Two urls requested back to back, both fetches succeed afterwards. *)
Definition overlapping_loads : list LoaderEvent :=
  [Call "a"; Call "b"; FetchOk 0 bmp_a; Resume 0; FetchOk 1 bmp_b; Resume 1].

(** A load that fails, then a retry of the same url that succeeds. *)
Definition failed_then_retried : list LoaderEvent :=
  [Call "a"; FetchFail 0; Resume 0; Call "a"; FetchOk 1 bmp_a; Resume 1].

(** A load that fails, then another url is loaded. *)
Definition failed_then_other : list LoaderEvent :=
  [Call "a"; FetchFail 0; Resume 0; Call "b"; FetchOk 1 bmp_b; Resume 1].


Definition spawn_rnd : SpawnRandom :=
  {| rnd_speed := 0.5; rnd_cos := 1; rnd_sin := 0; rnd_angular := 0.75;
     rnd_image := 0 |}.

(** One click ([Math.random()] = 0 gives [cnt] = 3 and the first image):
    the image is fetched once and three particles are written. *)
Definition first_batch : list Event :=
  [EvAddParticle 0 0; EvFetchOk 0 bmp_a; EvLoadTextureResume 0;
   EvAddParticleResume 0 spawn_rnd; EvAddParticleResume 0 spawn_rnd;
   EvAddParticleResume 0 spawn_rnd].

Definition three_particles : WebGPURenderer := run first_batch (newRenderer 1000).

Definition two_frames : list (Q * Q * Q) :=
  [(1016%Q, 1600%Q, 900%Q); (1032%Q, 1600%Q, 900%Q)].

(** A particle of the page (scale 0.3 as the [Float32Array] holds it,
    image of 512 x 256) in a canvas twice as wide as high, one step
    before it crosses the right and the top edge. *)
Definition corner_uniforms : Uniforms :=
  {| u_deltaTime := f32 0.016; u_particleCount := 1; u_aspectRatio := 2 |}.

Definition corner_static : StaticParticle :=
  {| scale := f32 0.3; aspectRatio := 2; angularVel := 0; texIndex := 0;
     uvScale := {| vec_x := 0.5; vec_y := 0.25 |} |}.

Definition corner_dynamic : DynamicParticle :=
  {| pos := {| vec_x := 1.6875; vec_y := 0.84375 |};
     vel := {| vec_x := 1; vec_y := 1 |};
     rotation := 0;
     padding := 0 |}.

(** Two clicks in a row, the second before the image of the first has
    arrived: the first picks image 0, the second image 1. *)
Definition overlapping_clicks : list Event :=
  [EvAddParticle 0 0; EvAddParticle 0 0.2;
   EvFetchOk 0 bmp_a; EvLoadTextureResume 0;
   EvFetchOk 1 bmp_b; EvLoadTextureResume 1;
   EvAddParticleResume 0 spawn_rnd; EvAddParticleResume 1 spawn_rnd].

(** A click whose three loads all fail. *)
Definition failing_click : list Event :=
  [EvAddParticle 0 0;
   EvFetchFail 0; EvLoadTextureResume 0; EvAddParticleResume 0 spawn_rnd;
   EvFetchFail 1; EvLoadTextureResume 1; EvAddParticleResume 0 spawn_rnd;
   EvFetchFail 2; EvLoadTextureResume 2; EvAddParticleResume 0 spawn_rnd].

(** A later click, the image being cached: call number [tid]. *)
Definition batch_of_three (tid : nat) : list Event :=
  [EvAddParticle 0 0; EvAddParticleResume tid spawn_rnd;
   EvAddParticleResume tid spawn_rnd; EvAddParticleResume tid spawn_rnd].

(** 3333 clicks of three particles each. *)
Definition clicks_to_9999 : list Event :=
  first_batch ++ flat_map batch_of_three (seq 1 3332).

(** What the voice loader keeps between two jobs. *)
Record voice_inv (s : voiceLoader.VoiceLoader) : Prop := {
  vinv_keys : NoDup (voiceLoader.Map_keys (voiceLoader.loadedAudios s));
  vinv_queue : NoDup (voiceLoader.pendingQueue s);
  vinv_queue_loaded : ∀ i, i ∈ voiceLoader.pendingQueue s →
    i ∈ voiceLoader.Map_keys (voiceLoader.loadedAudios s);
  vinv_loading : ∀ i, i ∈ voiceLoader.loading s →
    i ∉ voiceLoader.Map_keys (voiceLoader.loadedAudios s);
  vinv_loaded_range : ∀ i, i ∈ voiceLoader.Map_keys (voiceLoader.loadedAudios s) →
    i < voiceLoader.totalCount s;
  vinv_loading_range : ∀ i, i ∈ voiceLoader.loading s → i < voiceLoader.totalCount s;
}.

Definition is_Consume (e : voiceLoader.VoiceEvent) : Prop :=
  match e with voiceLoader.Consume _ => True | _ => False end.

Definition voice_a : voiceLoader.AudioBuffer := {| voiceLoader.audio_length := 480 |}.

(** * Proofs *)

(** ** Counting *)

Section count_lemmas.
Context {A : Type} (f : A → bool).

Lemma count_pos_lookup (l : list A) :
  0 < count f l → ∃ i x, l !! i = Some x ∧ f x = true.
Proof.
  induction l as [|a l IH]; simpl; [lia |].
  destruct (f a) eqn:Ha.
  - intros _. by exists 0, a.
  - intros H. destruct IH as (i & x & Hi & Hx); [lia |]. by exists (S i), x.
Qed.

Lemma count_lookup_pos (l : list A) (i : nat) (x : A) :
  l !! i = Some x → f x = true → 0 < count f l.
Proof.
  revert i. induction l as [|a l IH]; intros [|i] Hi Hx; simpl in *; try done.
  - injection Hi as ->. rewrite Hx. lia.
  - specialize (IH i Hi Hx). lia.
Qed.

Lemma count_le_1 (l : list A) :
  (∀ i j x y, l !! i = Some x → l !! j = Some y →
              f x = true → f y = true → i = j) →
  count f l ≤ 1.
Proof.
  induction l as [|a l IH]; simpl; intros Huniq; [lia |].
  assert (count f l ≤ 1) as IH'.
  { apply IH. intros i j x y Hi Hj Hx Hy.
    specialize (Huniq (S i) (S j) x y Hi Hj Hx Hy). lia. }
  destruct (f a) eqn:Ha; [| lia].
  destruct (count f l) as [|n] eqn:Hc; [lia |].
  destruct (count_pos_lookup l) as (i & x & Hi & Hx); [lia |].
  specialize (Huniq 0 (S i) a x eq_refl Hi Ha Hx). lia.
Qed.
End count_lemmas.

(** ** The texture loader *)

Lemma count_split_state (u : string) (l : list Load) :
  count (url_is u) l
  = count (λ r, url_is u r && is_fulfilled (load_state r)) l
  + count (λ r, url_is u r && is_rejected (load_state r)) l
  + count (λ r, url_is u r && is_pending (load_state r)) l.
Proof.
  induction l as [|r l IH]; simpl; [done |].
  rewrite IH. destruct (url_is u r), (load_state r); simpl; lia.
Qed.

Lemma loader_inv_new (maxT : nat) : loader_inv (newTextureLoader maxT).
Proof. split; simpl; intros; simplify_map_eq; try done. Qed.

Lemma lookup_snoc_Some {A} (l : list A) (x y : A) (i : nat) :
  (l ++ [x]) !! i = Some y → l !! i = Some y ∨ (i = length l ∧ y = x).
Proof.
  intros H. apply lookup_app_Some in H as [H | [Hle H]]; [by left |].
  right. destruct (i - length l) as [|k] eqn:Hk; simpl in H; [|done].
  injection H as ->. split; [lia | done].
Qed.

Lemma loader_inv_loadTexture (url : string) (s : TextureLoader) :
  loader_inv s → loader_inv (loadTexture url s).2.
Proof.
  intros [Hreg Huns Hpen Hful Hld Huq]. unfold loadTexture.
  destruct (loadedTextures s !! url) as [t|] eqn:Hl; [done |].
  destruct (loadingPromises s !! url) as [p|] eqn:Hp; [done |].
  case_decide as Hfull; [done |].
  simpl. split; simpl.
  - intros u p Hup. apply lookup_insert_Some in Hup as [[<- <-] | [Hne Hup]].
    + eexists. split; [apply list_lookup_middle; done | done].
    + destruct (Hreg u p Hup) as (l & Hl1 & Hl2 & Hl3).
      exists l. split; [by apply lookup_app_l_Some | done].
  - intros p l Hpl Hs. apply lookup_snoc_Some in Hpl as [Hpl | [-> ->]].
    + specialize (Huns p l Hpl Hs).
      rewrite lookup_insert_ne; [done | congruence].
    + simpl. by rewrite lookup_insert_eq.
  - intros p l Hpl Hs. apply lookup_snoc_Some in Hpl as [Hpl | [-> ->]].
    + by apply (Hpen p l).
    + simpl. done.
  - intros p l t Hpl Hs. apply lookup_snoc_Some in Hpl as [Hpl | [-> ->]].
    + by apply (Hful p l).
    + done.
  - intros u t Hut. destruct (Hld u t Hut) as (Hlt & p & l & Hpl & Hu & Hs).
    split; [done |]. exists p, l. split; [by apply lookup_app_l_Some | done].
  - intros p q l1 l2 t1 t2 H1 H2 Hu Hs1 Hs2.
    apply lookup_snoc_Some in H1 as [H1 | [-> ->]]; [| done].
    apply lookup_snoc_Some in H2 as [H2 | [-> ->]]; [| done].
    by apply (Huq p q l1 l2 t1 t2).
Qed.

Lemma is_pending_true (st : PromiseState) : is_pending st = true ↔ st = Pending.
Proof. destruct st; simpl; split; congruence. Qed.

(** Two unsettled rows for one url are the same row. *)
Lemma unsettled_same (s : TextureLoader) (p q : nat) (l1 l2 : Load) :
  loader_inv s →
  promises s !! p = Some l1 → promises s !! q = Some l2 →
  load_settled l1 = false → load_settled l2 = false →
  load_url l1 = load_url l2 → p = q.
Proof.
  intros Hinv H1 H2 Hs1 Hs2 Hu.
  pose proof (inv_unsettled s Hinv p l1 H1 Hs1) as E1.
  pose proof (inv_unsettled s Hinv q l2 H2 Hs2) as E2.
  rewrite Hu in E1. congruence.
Qed.

Lemma loader_inv_resolved (p : nat) (b : ImageBitmap) (s : TextureLoader) :
  loader_inv s → loader_inv (_loadTextureInternal_resolved p b s).
Proof.
  intros Hinv. unfold _loadTextureInternal_resolved.
  destruct (promises s !! p) as [l|] eqn:Hp; [| done].
  destruct (is_pending (load_state l)) eqn:Hst; [| done].
  apply is_pending_true in Hst.
  destruct (inv_pending s Hinv p l Hp Hst) as (Hsl & Hnone & Hidx).
  pose proof Hinv as [Hreg Huns Hpen Hful Hld Huq].
  split; simpl.
  - intros u q Huq'. destruct (Hreg u q Huq') as (l0 & Hq & Hu & Hs0).
    destruct (decide (p = q)) as [<- | Hne].
    + eexists. split; [apply list_lookup_insert_eq; by eapply lookup_lt_Some |].
      simpl. split; congruence.
    + exists l0. by rewrite list_lookup_insert_ne.
  - intros q l0 Hq Hs0.
    apply list_lookup_insert_Some in Hq as [(<- & <- & _) | [Hne Hq]]; simpl in *.
    + by apply Huns.
    + by apply Huns.
  - intros q l0 Hq Hs0.
    apply list_lookup_insert_Some in Hq as [(<- & <- & _) | [Hne Hq]]; simpl in *;
      [done |].
    destruct (Hpen q l0 Hq Hs0) as (Hs1 & Hn1 & Hi1).
    split; [done |]. split; [| lia].
    rewrite lookup_insert_ne; [done |].
    intros Heq. apply Hne. by eapply (unsettled_same s p q l l0).
  - intros q l0 t Hq Hs0.
    apply list_lookup_insert_Some in Hq as [(<- & <- & _) | [Hne Hq]]; simpl in *.
    + injection Hs0 as <-. by rewrite lookup_insert_eq.
    + specialize (Hful q l0 t Hq Hs0).
      rewrite lookup_insert_ne; [done | congruence].
  - intros u t Hut. apply lookup_insert_Some in Hut as [[<- <-] | [Hne Hut]].
    + simpl. split; [lia |]. eexists p, _.
      split; [apply list_lookup_insert_eq; by eapply lookup_lt_Some | done].
    + destruct (Hld u t Hut) as (Hlt & q & l0 & Hq & Hu & Hs0).
      split; [lia |]. exists q, l0.
      rewrite list_lookup_insert_ne; [done | congruence].
  - intros q1 q2 l1 l2 t1 t2 H1 H2 Hu Hs1 Hs2.
    apply list_lookup_insert_Some in H1 as [(<- & <- & _) | [Hne1 H1]];
    apply list_lookup_insert_Some in H2 as [(<- & <- & _) | [Hne2 H2]];
      simpl in *; try done.
    + specialize (Hful _ _ _ H2 Hs2). congruence.
    + specialize (Hful _ _ _ H1 Hs1). congruence.
    + by apply (Huq q1 q2 l1 l2 t1 t2).
Qed.

Lemma loader_inv_rejected (p : nat) (s : TextureLoader) :
  loader_inv s → loader_inv (_loadTextureInternal_rejected p s).
Proof.
  intros Hinv. unfold _loadTextureInternal_rejected.
  destruct (promises s !! p) as [l|] eqn:Hp; [| done].
  destruct (is_pending (load_state l)) eqn:Hst; [| done].
  apply is_pending_true in Hst.
  pose proof Hinv as [Hreg Huns Hpen Hful Hld Huq].
  split; simpl.
  - intros u q Huq'. destruct (Hreg u q Huq') as (l0 & Hq & Hu & Hs0).
    destruct (decide (p = q)) as [<- | Hne].
    + eexists. split; [apply list_lookup_insert_eq; by eapply lookup_lt_Some |].
      simpl. split; congruence.
    + exists l0. by rewrite list_lookup_insert_ne.
  - intros q l0 Hq Hs0.
    apply list_lookup_insert_Some in Hq as [(<- & <- & _) | [Hne Hq]]; simpl in *;
      by apply Huns.
  - intros q l0 Hq Hs0.
    apply list_lookup_insert_Some in Hq as [(<- & <- & _) | [Hne Hq]]; simpl in *;
      [done | by apply (Hpen q)].
  - intros q l0 t Hq Hs0.
    apply list_lookup_insert_Some in Hq as [(<- & <- & _) | [Hne Hq]]; simpl in *;
      [done | by apply (Hful q)].
  - intros u t Hut. destruct (Hld u t Hut) as (Hlt & q & l0 & Hq & Hu & Hs0).
    split; [done |]. exists q, l0.
    rewrite list_lookup_insert_ne; [done | congruence].
  - intros q1 q2 l1 l2 t1 t2 H1 H2 Hu Hs1 Hs2.
    apply list_lookup_insert_Some in H1 as [(<- & <- & _) | [Hne1 H1]];
    apply list_lookup_insert_Some in H2 as [(<- & <- & _) | [Hne2 H2]];
      simpl in *; try done.
    by apply (Huq q1 q2 l1 l2 t1 t2).
Qed.

Lemma loader_inv_resumed (p : nat) (s : TextureLoader) :
  loader_inv s → loader_inv (loadTexture_resumed p s).
Proof.
  intros Hinv. unfold loadTexture_resumed.
  destruct (promises s !! p) as [l|] eqn:Hp; [| done].
  destruct (is_pending (load_state l) || load_settled l) eqn:Hst; [done |].
  apply orb_false_iff in Hst as [Hnp Hns].
  pose proof Hinv as [Hreg Huns Hpen Hful Hld Huq].
  split; simpl.
  - intros u q Huq'. apply lookup_delete_Some in Huq' as [Hne Huq'].
    destruct (Hreg u q Huq') as (l0 & Hq & Hu & Hs0).
    exists l0. rewrite list_lookup_insert_ne; [done | congruence].
  - intros q l0 Hq Hs0.
    apply list_lookup_insert_Some in Hq as [(<- & <- & _) | [Hne Hq]]; simpl in *;
      [done |].
    rewrite lookup_delete_ne; [by apply Huns |].
    intros Heq. apply Hne. by eapply (unsettled_same s p q l l0).
  - intros q l0 Hq Hs0.
    apply list_lookup_insert_Some in Hq as [(<- & <- & _) | [Hne Hq]]; simpl in *.
    + rewrite Hs0 in Hnp. done.
    + by apply (Hpen q).
  - intros q l0 t Hq Hs0.
    apply list_lookup_insert_Some in Hq as [(<- & <- & _) | [Hne Hq]]; simpl in *.
    + by apply (Hful p l).
    + by apply (Hful q).
  - intros u t Hut. destruct (Hld u t Hut) as (Hlt & q & l0 & Hq & Hu & Hs0).
    split; [done |].
    destruct (decide (p = q)) as [<- | Hne].
    + eexists p, _. split; [apply list_lookup_insert_eq; by eapply lookup_lt_Some |].
      simpl. split; congruence.
    + exists q, l0. by rewrite list_lookup_insert_ne.
  - intros q1 q2 l1 l2 t1 t2 H1 H2 Hu Hs1 Hs2.
    apply list_lookup_insert_Some in H1 as [(<- & <- & _) | [Hne1 H1]];
    apply list_lookup_insert_Some in H2 as [(<- & <- & _) | [Hne2 H2]];
      simpl in *; try done.
    + by apply (Huq p q2 l l2 t1 t2).
    + by apply (Huq q1 p l1 l t1 t2).
    + by apply (Huq q1 q2 l1 l2 t1 t2).
Qed.

Lemma loader_inv_lstep (e : LoaderEvent) (s : TextureLoader) :
  loader_inv s → loader_inv (lstep e s).
Proof.
  destruct e; simpl.
  - apply loader_inv_loadTexture.
  - apply loader_inv_resolved.
  - apply loader_inv_rejected.
  - apply loader_inv_resumed.
Qed.

Lemma loader_inv_lrun (evs : list LoaderEvent) (s : TextureLoader) :
  loader_inv s → loader_inv (lrun evs s).
Proof.
  revert s. induction evs as [|e evs IH]; intros s Hs; simpl; [done |].
  by apply IH, loader_inv_lstep.
Qed.

Lemma reachable_inv (maxT : nat) (evs : list LoaderEvent) :
  loader_inv (lrun evs (newTextureLoader maxT)).
Proof. apply loader_inv_lrun, loader_inv_new. Qed.

Lemma andb_url_true (u : string) (g : PromiseState → bool) (l : Load) :
  url_is u l && g (load_state l) = true ↔ load_url l = u ∧ g (load_state l) = true.
Proof.
  unfold url_is. rewrite andb_true_iff, bool_decide_eq_true. done.
Qed.

Lemma is_fulfilled_true (st : PromiseState) :
  is_fulfilled st = true ↔ ∃ t, st = Fulfilled t.
Proof.
  destruct st; simpl; split; try congruence; eauto; intros [? ?]; congruence.
Qed.

Lemma inflight_le_1 (s : TextureLoader) (u : string) :
  loader_inv s → inflight u s ≤ 1.
Proof.
  intros Hinv. apply count_le_1. intros i j l1 l2 Hi Hj H1 H2.
  apply andb_url_true in H1 as [Hu1 Hp1]. apply andb_url_true in H2 as [Hu2 Hp2].
  apply is_pending_true in Hp1, Hp2.
  destruct (inv_pending s Hinv i l1 Hi Hp1) as (Hs1 & _).
  destruct (inv_pending s Hinv j l2 Hj Hp2) as (Hs2 & _).
  eapply (unsettled_same s i j l1 l2); eauto. congruence.
Qed.

Lemma uploads_loaded (s : TextureLoader) (u : string) :
  loader_inv s → uploads u s = if loadedTextures s !! u is Some _ then 1 else 0.
Proof.
  intros Hinv.
  assert (uploads u s ≤ 1) as Hle.
  { apply count_le_1. intros i j l1 l2 Hi Hj H1 H2.
    apply andb_url_true in H1 as [Hu1 Hp1]. apply andb_url_true in H2 as [Hu2 Hp2].
    apply is_fulfilled_true in Hp1 as [t1 Hp1]. apply is_fulfilled_true in Hp2 as [t2 Hp2].
    eapply (inv_unique s Hinv i j l1 l2); eauto. congruence. }
  destruct (loadedTextures s !! u) as [t|] eqn:Hl.
  - destruct (inv_loaded s Hinv u t Hl) as (_ & p & l & Hp & Hu & Hst).
    assert (0 < uploads u s); [| lia].
    eapply count_lookup_pos; [exact Hp |].
    apply andb_url_true. split; [done |]. rewrite Hst. done.
  - destruct (uploads u s) as [|n] eqn:Hn; [done |].
    destruct (count_pos_lookup (λ r, url_is u r && is_fulfilled (load_state r)) (promises s))
      as (i & l & Hi & Hf).
    { unfold uploads in Hn. lia. }
    apply andb_url_true in Hf as [Hu Hf]. apply is_fulfilled_true in Hf as [t Hf].
    pose proof (inv_fulfilled s Hinv i l t Hi Hf) as E. congruence.
Qed.

Lemma inflight_loaded (s : TextureLoader) (u : string) :
  loader_inv s → is_Some (loadedTextures s !! u) → inflight u s = 0.
Proof.
  intros Hinv [t Hl].
  destruct (inflight u s) as [|n] eqn:Hn; [done |].
  destruct (count_pos_lookup (λ r, url_is u r && is_pending (load_state r)) (promises s))
    as (i & l & Hi & Hf).
  { unfold inflight in Hn. lia. }
  apply andb_url_true in Hf as [Hu Hf]. apply is_pending_true in Hf.
  destruct (inv_pending s Hinv i l Hi Hf) as (_ & E & _). congruence.
Qed.

Lemma unsettled_starts_nothing (s : TextureLoader) (p : nat) (l : Load) :
  loader_inv s → promises s !! p = Some l → load_settled l = false →
  (loadTexture (load_url l) s).2 = s.
Proof.
  intros Hinv Hp Hs.
  pose proof (inv_unsettled s Hinv p l Hp Hs) as Hreg.
  unfold loadTexture. destruct (loadedTextures s !! load_url l); [done |].
  by rewrite Hreg.
Qed.

Lemma pending_shared (s : TextureLoader) (p : nat) (l : Load) :
  loader_inv s → promises s !! p = Some l → load_state l = Pending →
  loadTexture (load_url l) s = (AwShared p, s).
Proof.
  intros Hinv Hp Hst.
  destruct (inv_pending s Hinv p l Hp Hst) as (Hs & Hnone & _).
  pose proof (inv_unsettled s Hinv p l Hp Hs) as Hreg.
  unfold loadTexture. by rewrite Hnone, Hreg.
Qed.

(** C1.  After any sequence of [loadTexture] calls, fetch results and
    continuations, and for every url: at most one fetch of the url is
    in flight; a call made while a load of the url is pending returns
    the registered promise of that load and leaves the loader as it was
    (no second fetch), and no call starts a load of the url before the
    [loadTexture] call that started the last one has resumed; the url
    has been uploaded exactly once if it is loaded and not at all
    otherwise, and nothing is in flight for a loaded url; every fetch
    issued for the url is the upload, a failed attempt or the one in
    flight. *)
Theorem loadTexture_dedup (maxT : nat) (evs : list LoaderEvent) (url : string) :
  let s := lrun evs (newTextureLoader maxT) in
  inflight url s ≤ 1 ∧
  (∀ p l, promises s !! p = Some l → load_url l = url → load_state l = Pending →
          loadTexture url s = (AwShared p, s)) ∧
  (∀ p l, promises s !! p = Some l → load_url l = url → load_settled l = false →
          (loadTexture url s).2 = s) ∧
  uploads url s = (if loadedTextures s !! url is Some _ then 1 else 0) ∧
  (is_Some (loadedTextures s !! url) → inflight url s = 0) ∧
  fetches url s = uploads url s + failures url s + inflight url s.
Proof.
  intros s. pose proof (reachable_inv maxT evs) as Hinv. fold s in Hinv.
  split; [by apply inflight_le_1 |].
  split; [intros p l Hp <- Hst; by apply pending_shared |].
  split; [intros p l Hp <- Hst; by eapply unsettled_starts_nothing |].
  split; [by apply uploads_loaded |].
  split; [by apply inflight_loaded |].
  apply count_split_state.
Qed.

Lemma loadTexture_dedup_example :
  let s := lrun [Call "a"; Call "a"; Call "a"] (newTextureLoader 9) in
  loadTexture "a" s = (AwShared 0, s) ∧ fetches "a" s = 1.
Proof.
  intros s.
  destruct (loadTexture_dedup 9 [Call "a"; Call "a"; Call "a"] "a") as (_ & H & _).
  split; [| vm_compute; reflexivity].
  apply (H 0 {| load_url := "a"; load_index := 0;
                load_state := Pending; load_settled := false |});
    vm_compute; reflexivity.
Defined.

Lemma nextTextureIndex_lstep (e : LoaderEvent) (s : TextureLoader) :
  nextTextureIndex s ≤ nextTextureIndex (lstep e s).
Proof.
  destruct e as [url | p b | p | p]; simpl.
  - unfold loadTexture.
    destruct (loadedTextures s !! url); [done |].
    destruct (loadingPromises s !! url); [done |].
    case_decide; done.
  - unfold _loadTextureInternal_resolved.
    destruct (promises s !! p) as [l|]; [| done].
    destruct (is_pending (load_state l)); simpl; lia.
  - unfold _loadTextureInternal_rejected.
    destruct (promises s !! p) as [l|]; [| done].
    destruct (is_pending (load_state l)); simpl; lia.
  - unfold loadTexture_resumed.
    destruct (promises s !! p) as [l|]; [| done].
    destruct (is_pending (load_state l) || load_settled l); simpl; lia.
Qed.

Lemma nextTextureIndex_lrun (evs : list LoaderEvent) (s : TextureLoader) :
  nextTextureIndex s ≤ nextTextureIndex (lrun evs s).
Proof.
  revert s. induction evs as [|e evs IH]; intros s; simpl; [done |].
  etrans; [apply (nextTextureIndex_lstep e) | apply IH].
Qed.

Lemma rejected_keeps_counter (p : nat) (s : TextureLoader) :
  nextTextureIndex (_loadTextureInternal_rejected p s) = nextTextureIndex s.
Proof.
  unfold _loadTextureInternal_rejected.
  destruct (promises s !! p) as [l|]; [| done].
  by destruct (is_pending (load_state l)).
Qed.

Lemma resolved_advances_counter (p : nat) (b : ImageBitmap) (s : TextureLoader) (l : Load) :
  promises s !! p = Some l → load_state l = Pending →
  nextTextureIndex (_loadTextureInternal_resolved p b s) = S (nextTextureIndex s).
Proof.
  intros Hp Hst. unfold _loadTextureInternal_resolved. rewrite Hp, Hst. done.
Qed.

Lemma loadTexture_owner (url : string) (s s' : TextureLoader) (p : nat) :
  loadTexture url s = (AwOwner p, s') →
  promises s' !! p = Some {| load_url := url; load_index := nextTextureIndex s;
                             load_state := Pending; load_settled := false |}.
Proof.
  unfold loadTexture.
  destruct (loadedTextures s !! url); [done |].
  destruct (loadingPromises s !! url); [done |].
  case_decide; [done |]. simpl. intros [= <- <-]. simpl.
  by apply list_lookup_middle.
Qed.

(** The url and the index of a row never change. *)
Lemma row_stable (e : LoaderEvent) (s : TextureLoader) (p : nat) (l : Load) :
  promises s !! p = Some l →
  ∃ l', promises (lstep e s) !! p = Some l'
        ∧ load_url l' = load_url l ∧ load_index l' = load_index l.
Proof.
  intros Hp.
  assert (∀ q (r r' : Load), promises s !! q = Some r →
            load_url r' = load_url r → load_index r' = load_index r →
            ∃ l', <[q := r']> (promises s) !! p = Some l'
                  ∧ load_url l' = load_url l ∧ load_index l' = load_index l) as Hupd.
  { intros q r r' Hq Hu Hi. destruct (decide (q = p)) as [-> | Hne].
    - exists r'. rewrite list_lookup_insert_eq by (by eapply lookup_lt_Some).
      assert (r = l) as -> by congruence. done.
    - exists l. by rewrite list_lookup_insert_ne. }
  destruct e as [url | q b | q | q]; cbn [lstep].
  - unfold loadTexture.
    destruct (loadedTextures s !! url); [by exists l |].
    destruct (loadingPromises s !! url); [by exists l |].
    case_decide; [by exists l |]. simpl. exists l.
    split; [by apply lookup_app_l_Some | done].
  - unfold _loadTextureInternal_resolved.
    destruct (promises s !! q) as [r|] eqn:Hq; [| by exists l].
    destruct (is_pending (load_state r)); [| by exists l].
    simpl. by eapply Hupd.
  - unfold _loadTextureInternal_rejected.
    destruct (promises s !! q) as [r|] eqn:Hq; [| by exists l].
    destruct (is_pending (load_state r)); [| by exists l].
    simpl. by eapply Hupd.
  - unfold loadTexture_resumed.
    destruct (promises s !! q) as [r|] eqn:Hq; [| by exists l].
    destruct (is_pending (load_state r) || load_settled r); [by exists l |].
    simpl. by eapply Hupd.
Qed.

Lemma resumed_keeps_counter (p : nat) (s : TextureLoader) :
  nextTextureIndex (loadTexture_resumed p s) = nextTextureIndex s.
Proof.
  unfold loadTexture_resumed.
  destruct (promises s !! p) as [l|]; [| done].
  by destruct (is_pending (load_state l) || load_settled l).
Qed.

Lemma loadTexture_owner_fresh (url : string) (s s' : TextureLoader) (p : nat) :
  loadTexture url s = (AwOwner p, s') → p = length (promises s) ∧ s' = lstep (Call url) s.
Proof.
  intros H. split; [| by simpl; rewrite H].
  revert H. unfold loadTexture.
  destruct (loadedTextures s !! url); [done |].
  destruct (loadingPromises s !! url); [done |].
  case_decide; [done |]. simpl. by intros [= <- <-].
Qed.

Lemma loadTexture_keeps_counter (url : string) (s : TextureLoader) :
  nextTextureIndex (loadTexture url s).2 = nextTextureIndex s.
Proof.
  unfold loadTexture.
  destruct (loadedTextures s !! url); [done |].
  destruct (loadingPromises s !! url); [done |].
  by case_decide.
Qed.

(** A load that fails hands its index on to the load started next. *)
Lemma failed_index_handed_on (s s1 s4 : TextureLoader) (url url' : string) (p q : nat) :
  loadTexture url s = (AwOwner p, s1) →
  loadTexture url' (loadTexture_resumed p (_loadTextureInternal_rejected p s1))
    = (AwOwner q, s4) →
  p ≠ q ∧ ∃ l1 l2, promises s4 !! p = Some l1 ∧ promises s4 !! q = Some l2
                   ∧ load_index l1 = nextTextureIndex s
                   ∧ load_index l2 = nextTextureIndex s.
Proof.
  intros H1 H4.
  pose proof (loadTexture_owner url s s1 p H1) as Hp.
  destruct (row_stable (FetchFail p) s1 p _ Hp) as (l2' & Hp2 & _ & Hi2).
  destruct (row_stable (Resume p) _ p _ Hp2) as (l3 & Hp3 & _ & Hi3).
  cbn [lstep] in Hp2, Hp3.
  pose proof (loadTexture_owner url' _ s4 q H4) as Hq.
  destruct (loadTexture_owner_fresh url' _ s4 q H4) as [Hqlen Hs4].
  destruct (row_stable (Call url') _ p _ Hp3) as (l4 & Hp4 & _ & Hi4).
  rewrite <- Hs4 in Hp4.
  split.
  - apply lookup_lt_Some in Hp3. lia.
  - exists l4. eexists. split; [done |]. split; [exact Hq |].
    split; [simpl in *; congruence |].
    simpl. rewrite resumed_keeps_counter, rejected_keeps_counter.
    pose proof (loadTexture_keeps_counter url s) as E. by rewrite H1 in E.
Qed.

(** C5, as the code has it.  The counter [nextTextureIndex] never
    decreases; a failed load leaves it where it was and a successful
    load advances it by one; the index a new attempt reads, a retry
    included, is the counter, and is larger than the index of every
    texture loaded before the attempt started; and when an attempt fails,
    the attempt started next reads the index the failed one had read. *)
Theorem slot_counter_advances_on_success (maxT : nat) (evs : list LoaderEvent) :
  let s := lrun evs (newTextureLoader maxT) in
  (∀ evs', nextTextureIndex s ≤ nextTextureIndex (lrun evs' s)) ∧
  (∀ p, nextTextureIndex (_loadTextureInternal_rejected p s) = nextTextureIndex s) ∧
  (∀ p b l, promises s !! p = Some l → load_state l = Pending →
     nextTextureIndex (_loadTextureInternal_resolved p b s) = S (nextTextureIndex s)) ∧
  (∀ url p s', loadTexture url s = (AwOwner p, s') →
     (∃ l, promises s' !! p = Some l ∧ load_url l = url
           ∧ load_index l = nextTextureIndex s) ∧
     ∀ u t, loadedTextures s !! u = Some t → textureIndex t < nextTextureIndex s) ∧
  (∀ url url' p q s1 s4,
     loadTexture url s = (AwOwner p, s1) →
     loadTexture url' (loadTexture_resumed p (_loadTextureInternal_rejected p s1))
       = (AwOwner q, s4) →
     p ≠ q ∧ ∃ l1 l2, promises s4 !! p = Some l1 ∧ promises s4 !! q = Some l2
                      ∧ load_index l1 = nextTextureIndex s
                      ∧ load_index l2 = nextTextureIndex s).
Proof.
  intros s. pose proof (reachable_inv maxT evs) as Hinv. fold s in Hinv.
  split; [intros evs'; apply nextTextureIndex_lrun |].
  split; [intros p; apply rejected_keeps_counter |].
  split; [intros p b l; apply resolved_advances_counter |].
  split; [| intros url url' p q s1 s4; apply failed_index_handed_on].
  intros url p s' Hcall. split.
  - eexists. split; [by apply loadTexture_owner |]. done.
  - intros u t Hut. by destruct (inv_loaded s Hinv u t Hut).
Qed.

Lemma slot_counter_advances_on_success_example :
  let s := lrun failed_then_other (newTextureLoader 9) in
  let s2 := lrun (failed_then_other ++ [Call "a"]) (newTextureLoader 9) in
  nextTextureIndex (_loadTextureInternal_resolved 2 bmp_a s2) = S (nextTextureIndex s2) ∧
  (∀ u t, loadedTextures s !! u = Some t → textureIndex t < nextTextureIndex s).
Proof.
  intros s s2.
  destruct (slot_counter_advances_on_success 9 failed_then_other)
    as (_ & _ & _ & H4 & _).
  destruct (slot_counter_advances_on_success 9 (failed_then_other ++ [Call "a"]))
    as (_ & _ & H3 & _).
  split.
  - apply (H3 2 bmp_a {| load_url := "a"; load_index := 1;
                         load_state := Pending; load_settled := false |});
      vm_compute; reflexivity.
  - apply (H4 "a"%string 2 (loadTexture "a" s).2). vm_compute. reflexivity.
Defined.

(** C5 as stated fails: the load of "a" fails with index 0 in hand, and
    the retry is given index 0 again and records it. *)
Lemma failed_slot_is_reassigned :
  let s := lrun failed_then_retried (newTextureLoader 9) in
  assigned s = [0; 0] ∧
  loadedTextures s !! "a"%string = Some {| textureIndex := 0; bitmap := bmp_a |} ∧
  ¬ never_reassigned s.
Proof.
  split; [reflexivity |]. split; [reflexivity |].
  unfold never_reassigned. intros H. vm_compute in H.
  apply NoDup_cons in H as [H _]. apply H. left.
Qed.

(** C2.  Distinct urls are meant to get distinct indices; the code reads
    the counter before the fetch and advances it after the upload, so
    two loads in flight together read the same value: "a" and "b" are
    both recorded with index 0, layer 0 holds the image of "b", and the
    counter stands at 2. *)
Theorem concurrent_loads_share_slot :
  let s := lrun overlapping_loads (newTextureLoader 9) in
  loadedTextures s !! "a"%string = Some {| textureIndex := 0; bitmap := bmp_a |} ∧
  loadedTextures s !! "b"%string = Some {| textureIndex := 0; bitmap := bmp_b |} ∧
  textureArray s !! 0 = Some bmp_b ∧
  nextTextureIndex s = 2 ∧
  ¬ distinct_slots s.
Proof.
  repeat (split; [reflexivity |]).
  intros H. eapply (H "a"%string "b"%string); [done | reflexivity | reflexivity | reflexivity].
Qed.

(** ** The loader: cache, bounds, outcomes, retry and [clear] *)

Lemma maxTextures_lstep (e : LoaderEvent) (s : TextureLoader) :
  maxTextures (lstep e s) = maxTextures s.
Proof.
  destruct e as [url | p b | p | p]; cbn [lstep].
  - unfold loadTexture.
    destruct (loadedTextures s !! url); [done |].
    destruct (loadingPromises s !! url); [done |].
    by case_decide.
  - unfold _loadTextureInternal_resolved.
    destruct (promises s !! p) as [l|]; [| done].
    by destruct (is_pending (load_state l)).
  - unfold _loadTextureInternal_rejected.
    destruct (promises s !! p) as [l|]; [| done].
    by destruct (is_pending (load_state l)).
  - unfold loadTexture_resumed.
    destruct (promises s !! p) as [l|]; [| done].
    by destruct (is_pending (load_state l) || load_settled l).
Qed.

Lemma loader_bounds_new (maxT : nat) : loader_bounds (newTextureLoader maxT).
Proof. split; simpl; intros; simplify_map_eq; done. Qed.

Lemma loader_bounds_lstep (e : LoaderEvent) (s : TextureLoader) :
  loader_inv s → loader_bounds s → loader_bounds (lstep e s).
Proof.
  intros Hinv [Hidx Hful Hlay Hup Hsize].
  destruct e as [url | p b | p | p]; cbn [lstep].
  - unfold loadTexture.
    destruct (loadedTextures s !! url); [by split |].
    destruct (loadingPromises s !! url); [by split |].
    case_decide as Hfull; [by split |].
    split; simpl; try done.
    + intros p l Hp. apply lookup_snoc_Some in Hp as [Hp | [-> ->]]; [by eapply Hidx |].
      simpl. lia.
    + intros p l t Hp Hs. apply lookup_snoc_Some in Hp as [Hp | [-> ->]]; [by eapply Hful |].
      done.
    + intros p l t Hp Hs. apply lookup_snoc_Some in Hp as [Hp | [-> ->]]; [by eapply Hup |].
      done.
  - unfold _loadTextureInternal_resolved.
    destruct (promises s !! p) as [l|] eqn:Hp; [| by split].
    destruct (is_pending (load_state l)) eqn:Hst; [| by split].
    apply is_pending_true in Hst.
    destruct (inv_pending s Hinv p l Hp Hst) as (_ & Hnone & _).
    split; simpl.
    + intros q r Hq.
      apply list_lookup_insert_Some in Hq as [(<- & <- & _) | [Hne Hq]]; simpl;
        by eapply Hidx.
    + intros q r t Hq Hs.
      apply list_lookup_insert_Some in Hq as [(<- & <- & _) | [Hne Hq]]; simpl in *.
      * by injection Hs as <-.
      * by eapply Hful.
    + intros i b' Hi. apply lookup_insert_Some in Hi as [[<- _] | [_ Hi]].
      * by eapply Hidx.
      * by eapply Hlay.
    + intros q r t Hq Hs.
      apply list_lookup_insert_Some in Hq as [(<- & <- & _) | [Hne Hq]]; simpl in *.
      * rewrite lookup_insert_eq. by eexists.
      * destruct (decide (load_index l = load_index r)) as [-> | Hd].
        -- rewrite lookup_insert_eq. by eexists.
        -- rewrite lookup_insert_ne by done. by eapply Hup.
    + rewrite map_size_insert_None by done. by rewrite Hsize.
  - unfold _loadTextureInternal_rejected.
    destruct (promises s !! p) as [l|] eqn:Hp; [| by split].
    destruct (is_pending (load_state l)) eqn:Hst; [| by split].
    split; simpl; try done.
    + intros q r Hq.
      apply list_lookup_insert_Some in Hq as [(<- & <- & _) | [Hne Hq]]; simpl;
        by eapply Hidx.
    + intros q r t Hq Hs.
      apply list_lookup_insert_Some in Hq as [(<- & <- & _) | [Hne Hq]]; simpl in *;
        [done | by eapply Hful].
    + intros q r t Hq Hs.
      apply list_lookup_insert_Some in Hq as [(<- & <- & _) | [Hne Hq]]; simpl in *;
        [done | by eapply Hup].
  - unfold loadTexture_resumed.
    destruct (promises s !! p) as [l|] eqn:Hp; [| by split].
    destruct (is_pending (load_state l) || load_settled l) eqn:Hst; [by split |].
    split; simpl; try done.
    + intros q r Hq.
      apply list_lookup_insert_Some in Hq as [(<- & <- & _) | [Hne Hq]]; simpl;
        by eapply Hidx.
    + intros q r t Hq Hs.
      apply list_lookup_insert_Some in Hq as [(<- & <- & _) | [Hne Hq]]; simpl in *;
        by eapply Hful.
    + intros q r t Hq Hs.
      apply list_lookup_insert_Some in Hq as [(<- & <- & _) | [Hne Hq]]; simpl in *;
        by eapply Hup.
Qed.

Lemma loader_bounds_lrun (evs : list LoaderEvent) (s : TextureLoader) :
  loader_inv s → loader_bounds s → loader_bounds (lrun evs s).
Proof.
  revert s. induction evs as [|e evs IH]; intros s Hi Hb; simpl; [done |].
  apply IH; [by apply loader_inv_lstep | by apply loader_bounds_lstep].
Qed.

Lemma maxTextures_lrun (evs : list LoaderEvent) (s : TextureLoader) :
  maxTextures (lrun evs s) = maxTextures s.
Proof.
  revert s. induction evs as [|e evs IH]; intros s; simpl; [done |].
  by rewrite IH, maxTextures_lstep.
Qed.

Lemma loaded_kept_lstep (e : LoaderEvent) (s : TextureLoader) (u : string)
    (t : LoadedTexture) :
  loader_inv s → loadedTextures s !! u = Some t →
  loadedTextures (lstep e s) !! u = Some t.
Proof.
  intros Hinv Hu. destruct e as [url | p b | p | p]; cbn [lstep].
  - unfold loadTexture.
    destruct (loadedTextures s !! url); [done |].
    destruct (loadingPromises s !! url); [done |].
    by case_decide.
  - unfold _loadTextureInternal_resolved.
    destruct (promises s !! p) as [l|] eqn:Hp; [| done].
    destruct (is_pending (load_state l)) eqn:Hst; [| done].
    apply is_pending_true in Hst.
    destruct (inv_pending s Hinv p l Hp Hst) as (_ & Hnone & _).
    simpl. rewrite lookup_insert_ne; [done | congruence].
  - unfold _loadTextureInternal_rejected.
    destruct (promises s !! p) as [l|]; [| done].
    by destruct (is_pending (load_state l)).
  - unfold loadTexture_resumed.
    destruct (promises s !! p) as [l|]; [| done].
    by destruct (is_pending (load_state l) || load_settled l).
Qed.

Lemma loaded_kept_lrun (evs : list LoaderEvent) (s : TextureLoader) (u : string)
    (t : LoadedTexture) :
  loader_inv s → loadedTextures s !! u = Some t →
  loadedTextures (lrun evs s) !! u = Some t.
Proof.
  revert s. induction evs as [|e evs IH]; intros s Hi Hu; simpl; [done |].
  apply IH; [by apply loader_inv_lstep | by apply loaded_kept_lstep].
Qed.

(** X1.  A texture that is in the cache stays there, unchanged, whatever
    happens afterwards (calls, fetches that succeed or fail,
    continuations): [getLoadedTexture] keeps returning it, and
    [loadTexture] for its url returns it at once and leaves the loader
    as it is. *)
Theorem loaded_texture_is_permanent
    (maxT : nat) (evs evs' : list LoaderEvent) (url : string) (t : LoadedTexture) :
  let s := lrun evs (newTextureLoader maxT) in
  getLoadedTexture url s = Some t →
  getLoadedTexture url (lrun evs' s) = Some t
  ∧ loadTexture url (lrun evs' s) = (AwValue t, lrun evs' s).
Proof.
  intros s Hu. unfold getLoadedTexture in *.
  assert (loadedTextures (lrun evs' s) !! url = Some t) as H.
  { apply loaded_kept_lrun; [apply reachable_inv | done]. }
  split; [done |]. unfold loadTexture. by rewrite H.
Qed.

Lemma loaded_texture_is_permanent_example :
  let t := {| textureIndex := 0; bitmap := bmp_a |} in
  getLoadedTexture "a" (lrun [Call "b"; FetchFail 1; Call "a"]
                          (lrun [Call "a"; FetchOk 0 bmp_a] (newTextureLoader 9)))
  = Some t.
Proof.
  intros t.
  apply (loaded_texture_is_permanent 9 [Call "a"; FetchOk 0 bmp_a]
           [Call "b"; FetchFail 1; Call "a"] "a" t).
  vm_compute. reflexivity.
Defined.

(** X2.  At every point of every trace from a fresh loader,
    [getLoadedCount()] equals [getNextTextureIndex()]: the counter
    counts the textures in the cache, also when loads overlap or
    fail. *)
Theorem loaded_count_is_counter (maxT : nat) (evs : list LoaderEvent) :
  let s := lrun evs (newTextureLoader maxT) in
  getLoadedCount s = getNextTextureIndex s.
Proof.
  intros s. apply bnd_size, loader_bounds_lrun;
    [apply loader_inv_new | apply loader_bounds_new].
Qed.

(** X3.  No load ever reads, and no upload ever writes, a layer outside
    the texture array: the index of every promise, every layer written
    and the [textureIndex] of every cached texture are below
    [maxTextures]. *)
Theorem uploads_stay_inside_texture_array (maxT : nat) (evs : list LoaderEvent) :
  let s := lrun evs (newTextureLoader maxT) in
  (∀ p l, promises s !! p = Some l → load_index l < maxT) ∧
  (∀ layer b, textureArray s !! layer = Some b → layer < maxT) ∧
  (∀ url t, getLoadedTexture url s = Some t → textureIndex t < maxT).
Proof.
  intros s.
  assert (loader_bounds s) as Hb.
  { apply loader_bounds_lrun; [apply loader_inv_new | apply loader_bounds_new]. }
  assert (maxTextures s = maxT) as Hm by apply maxTextures_lrun.
  pose proof (reachable_inv maxT evs) as Hinv. fold s in Hinv.
  rewrite <- Hm. split; [apply (bnd_index s Hb) |]. split; [apply (bnd_layers s Hb) |].
  intros url t Hu. destruct (inv_loaded s Hinv url t Hu) as (_ & p & l & Hp & _ & Hst).
  rewrite (bnd_fulfilled s Hb p l t Hp Hst). by eapply bnd_index.
Qed.

Lemma uploads_stay_inside_texture_array_example :
  textureIndex {| textureIndex := 0; bitmap := bmp_b |} < 1.
Proof.
  destruct (uploads_stay_inside_texture_array 1 overlapping_loads) as (_ & _ & H).
  apply (H "b"%string). vm_compute. reflexivity.
Defined.

Lemma row_final (e : LoaderEvent) (s : TextureLoader) (p : nat) (l : Load) :
  promises s !! p = Some l → load_state l ≠ Pending →
  ∃ l', promises (lstep e s) !! p = Some l'
        ∧ load_state l' = load_state l ∧ load_url l' = load_url l
        ∧ (load_settled l = true → l' = l).
Proof.
  intros Hp Hst.
  destruct e as [url | q b | q | q]; cbn [lstep].
  - unfold loadTexture.
    destruct (loadedTextures s !! url); [by exists l |].
    destruct (loadingPromises s !! url); [by exists l |].
    case_decide; [by exists l |]. simpl. exists l.
    split; [by apply lookup_app_l_Some | done].
  - unfold _loadTextureInternal_resolved.
    destruct (promises s !! q) as [r|] eqn:Hq; [| by exists l].
    destruct (is_pending (load_state r)) eqn:Hr; [| by exists l].
    apply is_pending_true in Hr. simpl. exists l.
    rewrite list_lookup_insert_ne; [done | congruence].
  - unfold _loadTextureInternal_rejected.
    destruct (promises s !! q) as [r|] eqn:Hq; [| by exists l].
    destruct (is_pending (load_state r)) eqn:Hr; [| by exists l].
    apply is_pending_true in Hr. simpl. exists l.
    rewrite list_lookup_insert_ne; [done | congruence].
  - unfold loadTexture_resumed.
    destruct (promises s !! q) as [r|] eqn:Hq; [| by exists l].
    destruct (is_pending (load_state r) || load_settled r) eqn:Hr; [by exists l |].
    apply orb_false_iff in Hr as [_ Hr]. simpl.
    destruct (decide (q = p)) as [-> | Hne].
    + assert (r = l) as -> by congruence.
      eexists. split; [apply list_lookup_insert_eq; by eapply lookup_lt_Some |].
      simpl. repeat split; try done. congruence.
    + exists l. by rewrite list_lookup_insert_ne.
Qed.

Lemma settled_result_Some (l : Load) (r : Error + LoadedTexture) :
  settled_result l = Some r → load_state l ≠ Pending.
Proof. unfold settled_result. by destruct (load_state l). Qed.

Lemma poll_final_lstep (e : LoaderEvent) (s : TextureLoader) (a : Awaited)
    (r : Error + LoadedTexture) :
  poll a s = Some r → poll a (lstep e s) = Some r.
Proof.
  destruct a as [t | p | err | p]; simpl; try done.
  - destruct (promises s !! p) as [l|] eqn:Hp; simpl; [| done]. intros Hr.
    destruct (row_final e s p l Hp (settled_result_Some l r Hr)) as (l' & -> & Hs & Hu & _).
    simpl. unfold settled_result in *. by rewrite Hs, Hu.
  - destruct (promises s !! p) as [l|] eqn:Hp; simpl; [| done].
    destruct (load_settled l) eqn:Hset; [| done]. intros Hr.
    destruct (row_final e s p l Hp (settled_result_Some l r Hr)) as (l' & -> & _ & _ & Heq).
    rewrite (Heq Hset). simpl. by rewrite Hset.
Qed.

Lemma poll_final_lrun (evs : list LoaderEvent) (s : TextureLoader) (a : Awaited)
    (r : Error + LoadedTexture) :
  poll a s = Some r → poll a (lrun evs s) = Some r.
Proof.
  revert s. induction evs as [|e evs IH]; intros s H; simpl; [done |].
  by apply IH, poll_final_lstep.
Qed.

Lemma poll_owner_shared (s : TextureLoader) (p : nat) (r : Error + LoadedTexture) :
  poll (AwOwner p) s = Some r → poll (AwShared p) s = Some r.
Proof.
  simpl. destruct (promises s !! p) as [l|]; simpl; [| done].
  by destruct (load_settled l).
Qed.

(** X4.  The outcome of a settled promise never changes: once awaiting
    it yields a result, it yields the same result after any further
    events; and what the caller that started the load receives is what
    the callers that share the promise receive. *)
Theorem settled_outcome_is_final
    (evs : list LoaderEvent) (s : TextureLoader) (a : Awaited)
    (r : Error + LoadedTexture) :
  poll a s = Some r →
  poll a (lrun evs s) = Some r
  ∧ (∀ p, a = AwOwner p → poll (AwShared p) (lrun evs s) = Some r).
Proof.
  intros H. split; [by apply poll_final_lrun |].
  intros p ->. by apply poll_owner_shared, poll_final_lrun.
Qed.

Lemma settled_outcome_is_final_example :
  poll (AwShared 0) (lrun [Resume 0; Call "a"; FetchOk 1 bmp_a]
                          (lrun [Call "a"; Call "a"; FetchFail 0] (newTextureLoader 9)))
  = Some (inl (LoadFailed "a")).
Proof.
  destruct (settled_outcome_is_final [Resume 0; Call "a"; FetchOk 1 bmp_a]
              (lrun [Call "a"; Call "a"; FetchFail 0] (newTextureLoader 9))
              (AwShared 0) (inl (LoadFailed "a"))) as [H _].
  - vm_compute. reflexivity.
  - exact H.
Defined.

(** X5.  When awaiting the promise of a load yields a texture, that
    texture is the one the cache holds for the url of the load, its
    [textureIndex] is the index the load had read, and that layer of the
    texture array has been written. *)
Theorem awaited_texture_is_the_cached_one
    (maxT : nat) (evs : list LoaderEvent) (p : nat) (l : Load) (t : LoadedTexture) :
  let s := lrun evs (newTextureLoader maxT) in
  promises s !! p = Some l →
  poll (AwShared p) s = Some (inr t) →
  getLoadedTexture (load_url l) s = Some t
  ∧ textureIndex t = load_index l
  ∧ textureArray s !! load_index l ≠ None.
Proof.
  intros s Hp Hpoll. simpl in Hpoll. rewrite Hp in Hpoll. simpl in Hpoll.
  unfold settled_result in Hpoll.
  destruct (load_state l) as [| t' |] eqn:Hst; try done. injection Hpoll as ->.
  pose proof (reachable_inv maxT evs) as Hinv. fold s in Hinv.
  assert (loader_bounds s) as Hb.
  { apply loader_bounds_lrun; [apply loader_inv_new | apply loader_bounds_new]. }
  split; [by apply (inv_fulfilled s Hinv p l) |].
  split; [by apply (bnd_fulfilled s Hb p l) |].
  destruct (bnd_uploaded s Hb p l t Hp Hst) as [b Hb']. by rewrite Hb'.
Qed.

Lemma awaited_texture_is_the_cached_one_example :
  getLoadedTexture "b" (lrun overlapping_loads (newTextureLoader 9))
  = Some {| textureIndex := 0; bitmap := bmp_b |}.
Proof.
  destruct (awaited_texture_is_the_cached_one 9 overlapping_loads 1
              {| load_url := "b"; load_index := 0;
                 load_state := Fulfilled {| textureIndex := 0; bitmap := bmp_b |};
                 load_settled := true |}
              {| textureIndex := 0; bitmap := bmp_b |}) as (H & _).
  - vm_compute. reflexivity.
  - vm_compute. reflexivity.
  - exact H.
Defined.

Lemma loading_iff_unsettled (s : TextureLoader) (url : string) :
  loader_inv s →
  isLoading url s = true ↔
  ∃ p l, promises s !! p = Some l ∧ load_url l = url ∧ load_settled l = false.
Proof.
  intros Hinv. unfold isLoading. rewrite bool_decide_eq_true. split.
  - intros [p Hp]. destruct (inv_registered s Hinv url p Hp) as (l & ? & ? & ?).
    by exists p, l.
  - intros (p & l & Hp & <- & Hs). exists p. by apply (inv_unsettled s Hinv).
Qed.

(** X6.  [isLoading(url)] is true exactly while there is a promise for
    [url] whose starting call has not run its continuation yet; while
    it is true, [loadTexture(url)] changes nothing, and when it is false
    no fetch for [url] is in flight. *)
Theorem isLoading_tracks_unfinished_calls
    (maxT : nat) (evs : list LoaderEvent) (url : string) :
  let s := lrun evs (newTextureLoader maxT) in
  (isLoading url s = true ↔
     ∃ p l, promises s !! p = Some l ∧ load_url l = url ∧ load_settled l = false) ∧
  (isLoading url s = true → (loadTexture url s).2 = s) ∧
  (isLoading url s = false → inflight url s = 0).
Proof.
  intros s. pose proof (reachable_inv maxT evs) as Hinv. fold s in Hinv.
  split; [by apply loading_iff_unsettled |]. split.
  - intros H. apply (loading_iff_unsettled s url Hinv) in H as (p & l & Hp & <- & Hs).
    by eapply unsettled_starts_nothing.
  - intros H. destruct (inflight url s) as [|n] eqn:Hn; [done |].
    destruct (count_pos_lookup (λ r, url_is url r && is_pending (load_state r)) (promises s))
      as (i & l & Hi & Hf).
    { unfold inflight in Hn. lia. }
    apply andb_url_true in Hf as [Hu Hf]. apply is_pending_true in Hf.
    destruct (inv_pending s Hinv i l Hi Hf) as (Hs & _).
    assert (isLoading url s = true) as E; [| congruence].
    apply (loading_iff_unsettled s url Hinv). by exists i, l.
Qed.

Lemma isLoading_tracks_unfinished_calls_example :
  let s := lrun [Call "a"; FetchFail 0] (newTextureLoader 9) in
  (loadTexture "a" s).2 = s.
Proof.
  intros s.
  destruct (isLoading_tracks_unfinished_calls 9 [Call "a"; FetchFail 0] "a") as (_ & H & _).
  apply H. vm_compute. reflexivity.
Defined.

Lemma loadTexture_owner_inv (url : string) (s s1 : TextureLoader) (p : nat) :
  loadTexture url s = (AwOwner p, s1) →
  loadedTextures s !! url = None ∧ loadingPromises s !! url = None
  ∧ nextTextureIndex s < maxTextures s ∧ p = length (promises s)
  ∧ s1 = {| maxTextures := maxTextures s;
            loadedTextures := loadedTextures s;
            loadingPromises := <[url := p]> (loadingPromises s);
            nextTextureIndex := nextTextureIndex s;
            textureArray := textureArray s;
            promises := promises s ++
              [ {| load_url := url; load_index := nextTextureIndex s;
                   load_state := Pending; load_settled := false |} ] |}.
Proof.
  unfold loadTexture.
  destruct (loadedTextures s !! url) eqn:Hl; [done |].
  destruct (loadingPromises s !! url) eqn:Hp; [done |].
  case_decide as Hfull; [done |]. simpl. intros [= <- <-].
  repeat split; try done. lia.
Qed.

Lemma insert_last {A} (l : list A) (x y : A) :
  <[length l := y]> (l ++ [x]) = l ++ [y].
Proof. rewrite insert_app_r_alt by lia. by rewrite Nat.sub_diag. Qed.

(** X7.  A load that fails can be retried: after the fetch has failed
    the url still counts as loading until the starting call resumes,
    and a call in between shares the rejected promise; the starting
    call and the sharing ones get the failure; after the starting call
    has resumed the url is neither loading nor loaded, and the next
    [loadTexture] starts a fresh load with the next promise. *)
Theorem failed_load_can_be_retried
    (s s1 : TextureLoader) (url : string) (p : nat) :
  loadTexture url s = (AwOwner p, s1) →
  let s2 := _loadTextureInternal_rejected p s1 in
  let s3 := loadTexture_resumed p s2 in
  poll (AwShared p) s2 = Some (inl (LoadFailed url)) ∧
  loadTexture url s2 = (AwShared p, s2) ∧
  poll (AwOwner p) s3 = Some (inl (LoadFailed url)) ∧
  isLoading url s3 = false ∧ isLoaded url s3 = false ∧
  ∃ q s4, loadTexture url s3 = (AwOwner q, s4) ∧ q = S p.
Proof.
  intros H. destruct (loadTexture_owner_inv url s s1 p H) as (Hl & Hp & Hfull & -> & ->).
  intros s2 s3.
  assert (s2 = {| maxTextures := maxTextures s;
                  loadedTextures := loadedTextures s;
                  loadingPromises := <[url := length (promises s)]> (loadingPromises s);
                  nextTextureIndex := nextTextureIndex s;
                  textureArray := textureArray s;
                  promises := promises s ++
                    [ {| load_url := url; load_index := nextTextureIndex s;
                         load_state := Rejected; load_settled := false |} ] |}) as E2.
  { subst s2. unfold _loadTextureInternal_rejected. cbn [promises].
    rewrite list_lookup_middle by done. cbn. by rewrite insert_last. }
  assert (s3 = {| maxTextures := maxTextures s;
                  loadedTextures := loadedTextures s;
                  loadingPromises := delete url (loadingPromises s);
                  nextTextureIndex := nextTextureIndex s;
                  textureArray := textureArray s;
                  promises := promises s ++
                    [ {| load_url := url; load_index := nextTextureIndex s;
                         load_state := Rejected; load_settled := true |} ] |}) as E3.
  { subst s3. rewrite E2. unfold loadTexture_resumed. cbn [promises].
    rewrite list_lookup_middle by done. cbn. by rewrite insert_last, delete_insert_eq. }
  clearbody s2 s3. subst s2 s3.
  split. { cbn. by rewrite list_lookup_middle. }
  split. { unfold loadTexture. cbn. by rewrite Hl, lookup_insert_eq. }
  split. { cbn. by rewrite list_lookup_middle. }
  split. { unfold isLoading. cbn. rewrite bool_decide_eq_false, lookup_delete_eq.
           by intros [? ?]. }
  split. { unfold isLoaded. cbn. rewrite bool_decide_eq_false, Hl. by intros [? ?]. }
  unfold loadTexture. cbn. rewrite Hl, lookup_delete_eq.
  rewrite decide_False by lia. eexists _, _. split; [reflexivity |].
  rewrite length_app. simpl. lia.
Qed.

Lemma failed_load_can_be_retried_example :
  let s3 := lrun [Call "a"; FetchFail 0; Resume 0] (newTextureLoader 9) in
  ∃ q s4, loadTexture "a" s3 = (AwOwner q, s4) ∧ q = 1.
Proof.
  destruct (failed_load_can_be_retried (newTextureLoader 9)
              (loadTexture "a" (newTextureLoader 9)).2 "a" 0) as (_ & _ & _ & _ & _ & H).
  - vm_compute. reflexivity.
  - exact H.
Defined.

(** X8.  [clear()] does not cancel a load that is under way: after
    [clear()] the url no longer counts as loading, so a new call starts
    a second load of it, while the first one, when its fetch arrives,
    still uploads with the index it had read before the reset, caches
    its texture and advances the counter that was reset. *)
Theorem clear_does_not_cancel_loads
    (s : TextureLoader) (p : nat) (l : Load) (b : ImageBitmap) :
  promises s !! p = Some l → load_state l = Pending → 0 < maxTextures s →
  let c := clear s in
  isLoading (load_url l) c = false ∧ getLoadedCount c = 0 ∧
  (∃ q s', loadTexture (load_url l) c = (AwOwner q, s') ∧ q = length (promises s)) ∧
  getLoadedTexture (load_url l) (_loadTextureInternal_resolved p b c)
    = Some {| textureIndex := load_index l; bitmap := b |} ∧
  getNextTextureIndex (_loadTextureInternal_resolved p b c) = 1.
Proof.
  intros Hp Hst Hmax c. subst c.
  split. { unfold isLoading, clear. cbn. rewrite bool_decide_eq_false, lookup_empty.
           by intros [? ?]. }
  split. { unfold getLoadedCount, clear. cbn. apply map_size_empty. }
  split. { unfold loadTexture, clear. cbn. rewrite !lookup_empty.
           rewrite decide_False by lia. by eexists _, _. }
  unfold _loadTextureInternal_resolved, clear, getLoadedTexture, getNextTextureIndex.
  cbn [promises]. rewrite Hp, Hst. cbn. by rewrite lookup_insert_eq.
Qed.

Lemma clear_does_not_cancel_loads_example :
  let c := clear (lrun [Call "a"] (newTextureLoader 9)) in
  getLoadedTexture "a" (_loadTextureInternal_resolved 0 bmp_a c)
  = Some {| textureIndex := 0; bitmap := bmp_a |}.
Proof.
  destruct (clear_does_not_cancel_loads (lrun [Call "a"] (newTextureLoader 9)) 0
              {| load_url := "a"; load_index := 0;
                 load_state := Pending; load_settled := false |} bmp_a)
    as (_ & _ & _ & H & _).
  - vm_compute. reflexivity.
  - reflexivity.
  - apply Nat.ltb_lt. vm_compute. reflexivity.
  - exact H.
Defined.

(** ** The kernel *)


Lemma main_lookup_ne u din stat index out (i : nat) :
  i ≠ index → main u din stat index out !! i = out !! i.
Proof.
  intros Hne. unfold main. case_decide; [done |].
  by rewrite list_lookup_insert_ne.
Qed.

Lemma main_lookup_guard u din stat index out :
  u_particleCount u ≤ index → main u din stat index out = out.
Proof. intros H. unfold main. by rewrite decide_True. Qed.

Lemma main_lookup_eq u din stat index (out : list DynamicParticle) :
  index < u_particleCount u →
  main u din stat index out !! index
  = (λ _, simulate u (default DynamicParticle_zero (din !! index))
                     (default StaticParticle_zero (stat !! index))) <$> out !! index.
Proof.
  intros H. unfold main. rewrite decide_False by lia.
  destruct (out !! index) as [d|] eqn:Hd; simpl.
  - apply list_lookup_insert_eq. by eapply lookup_lt_Some.
  - rewrite list_insert_ge; [done |]. by apply lookup_ge_None.
Qed.

Lemma invocations_lookup u din stat (out : list DynamicParticle) (m i : nat) :
  foldl (λ o index, main u din stat index o) out (seq 0 m) !! i
  = if decide (i < m ∧ i < u_particleCount u)
    then (λ _, simulate u (default DynamicParticle_zero (din !! i))
                          (default StaticParticle_zero (stat !! i))) <$> out !! i
    else out !! i.
Proof.
  induction m as [|m IH].
  - cbn [seq foldl]. case_decide; [lia | done].
  - rewrite seq_S, foldl_app. simpl.
    destruct (decide (i = m)) as [-> | Hne].
    + destruct (decide (m < u_particleCount u)) as [Hlt | Hge].
      * rewrite main_lookup_eq by done. rewrite IH.
        rewrite decide_False by lia. rewrite decide_True by lia. done.
      * rewrite main_lookup_guard by lia. rewrite IH.
        rewrite !decide_False by lia. done.
    + rewrite main_lookup_ne by done. rewrite IH.
      destruct (decide (i < m ∧ i < u_particleCount u));
        [rewrite decide_True by lia | rewrite decide_False by lia]; done.
Qed.

Lemma Math_ceil_div_covers (n : nat) : n ≤ Math_ceil_div n WORKGROUP_SIZE * WORKGROUP_SIZE.
Proof.
  unfold Math_ceil_div, WORKGROUP_SIZE.
  pose proof (Nat.div_mod_eq (n + (64 - 1)) 64) as H.
  pose proof (Nat.mod_upper_bound (n + (64 - 1)) 64) as H'.
  lia.
Qed.

Lemma u32_le (n : nat) : u32 n ≤ n.
Proof.
  unfold u32.
  pose proof (Z.mod_le (Z.of_nat n) (2 ^ 32)) as H.
  assert (Z.of_nat n mod 2 ^ 32 ≤ Z.of_nat n)%Z by (apply H; lia).
  lia.
Qed.

Lemma dispatch_lookup_live workgroups u din stat (out : list DynamicParticle) (i : nat) :
  i < u_particleCount u → i < workgroups * WORKGROUP_SIZE →
  dispatchWorkgroups workgroups u din stat out !! i
  = (λ _, simulate u (default DynamicParticle_zero (din !! i))
                     (default StaticParticle_zero (stat !! i))) <$> out !! i.
Proof.
  intros H1 H2. unfold dispatchWorkgroups. rewrite invocations_lookup.
  by rewrite decide_True.
Qed.

Lemma dispatch_lookup_beyond workgroups u din stat (out : list DynamicParticle) (i : nat) :
  u_particleCount u ≤ i →
  dispatchWorkgroups workgroups u din stat out !! i = out !! i.
Proof.
  intros H. unfold dispatchWorkgroups. rewrite invocations_lookup.
  rewrite decide_False by lia. done.
Qed.

(** ** Frames *)

Lemma parity (N : nat) :
  (N mod 2 = 0 ∧ (N + 1) mod 2 = 1) ∨ (N mod 2 = 1 ∧ (N + 1) mod 2 = 0).
Proof.
  pose proof (Nat.div_mod_eq N 2). pose proof (Nat.mod_upper_bound N 2).
  pose proof (Nat.div_mod_eq (N + 1) 2). pose proof (Nat.mod_upper_bound (N + 1) 2).
  lia.
Qed.

Lemma bind_group_of_frame (N : nat) :
  tuple_get (N mod 2) computeBindGroups
  = {| binding0 := N mod 2; binding1 := (N + 1) mod 2 |}.
Proof. destruct (parity N) as [[-> ->] | [-> ->]]; reflexivity. Qed.

Lemma tuple_get_set_eq {A} (i : nat) (a : A) (t : A * A) :
  tuple_get i (tuple_set i a t) = a.
Proof. by destruct i, t. Qed.

Lemma tuple_get_set_other {A} (N : nat) (a : A) (t : A * A) :
  tuple_get (N mod 2) (tuple_set ((N + 1) mod 2) a t) = tuple_get (N mod 2) t.
Proof. destruct (parity N) as [[-> ->] | [-> ->]]; by destruct t. Qed.

Lemma encode_live (s : WebGPURenderer) :
  0 < particleCount s →
  encode s =
    [ComputePass {| binding0 := frame s mod 2; binding1 := (frame s + 1) mod 2 |}
                 (Math_ceil_div (particleCount s) WORKGROUP_SIZE);
     RenderPass (Some ((frame s + 1) mod 2, particleCount s))].
Proof.
  intros H. unfold encode. rewrite !decide_True by done.
  by rewrite bind_group_of_frame.
Qed.

Lemma encode_idle (s : WebGPURenderer) :
  particleCount s = 0 → encode s = [RenderPass None].
Proof. intros H. unfold encode. rewrite !decide_False by lia. done. Qed.

Lemma renderLoop_live (now w h : Q) (s : WebGPURenderer) :
  0 < particleCount s →
  renderLoop now w h s =
  {| particleCount := particleCount s;
     textureLoader := textureLoader s;
     frame := S (frame s);
     lastTime := now;
     dynamicBuffers :=
       tuple_set ((frame s + 1) mod 2) (step_output now w h s) (dynamicBuffers s);
     staticBuffer := staticBuffer s;
     uniformsBuffer := frame_uniforms now w h s;
     buttonText := buttonText s;
     console := console s;
     tasks := tasks s;
     drawn := take (particleCount s) (zip (step_output now w h s) (staticBuffer s)) |}.
Proof.
  intros H. unfold renderLoop. rewrite encode_live by done.
  cbn [submit foldl exec particleCount textureLoader frame lastTime dynamicBuffers
       staticBuffer uniformsBuffer buttonText console tasks drawn binding0 binding1].
  rewrite tuple_get_set_eq. reflexivity.
Qed.

Lemma renderLoop_idle (now w h : Q) (s : WebGPURenderer) :
  particleCount s = 0 →
  renderLoop now w h s =
  {| particleCount := particleCount s;
     textureLoader := textureLoader s;
     frame := S (frame s);
     lastTime := now;
     dynamicBuffers := dynamicBuffers s;
     staticBuffer := staticBuffer s;
     uniformsBuffer := frame_uniforms now w h s;
     buttonText := buttonText s;
     console := console s;
     tasks := tasks s;
     drawn := [] |}.
Proof.
  intros H. unfold renderLoop. rewrite encode_idle by done. reflexivity.
Qed.

(** C4.  In the frame numbered [N] with at least one particle, the
    compute pass binds dynamic buffer [N mod 2] for reading and buffer
    [(N + 1) mod 2], a different one, for writing, and the render pass
    draws from buffer [(N + 1) mod 2]: after the frame the buffer read is
    as it was, the other holds the output of the simulation step, and
    the instances drawn are taken from that output. *)
Theorem render_reads_what_simulation_wrote (now w h : Q) (s : WebGPURenderer) :
  0 < particleCount s →
  let N := frame s in
  let s' := renderLoop now w h s in
  encode s =
    [ComputePass {| binding0 := N mod 2; binding1 := (N + 1) mod 2 |}
                 (Math_ceil_div (particleCount s) WORKGROUP_SIZE);
     RenderPass (Some ((N + 1) mod 2, particleCount s))] ∧
  N mod 2 ≠ (N + 1) mod 2 ∧
  tuple_get (N mod 2) (dynamicBuffers s') = tuple_get (N mod 2) (dynamicBuffers s) ∧
  tuple_get ((N + 1) mod 2) (dynamicBuffers s') = step_output now w h s ∧
  drawn s' = take (particleCount s)
               (zip (tuple_get ((N + 1) mod 2) (dynamicBuffers s')) (staticBuffer s')) ∧
  frame s' = S N.
Proof.
  intros Hlive N s'. subst s' N. rewrite renderLoop_live by done.
  cbn [dynamicBuffers drawn frame staticBuffer].
  split; [by apply encode_live |].
  split; [destruct (parity (frame s)) as [[-> ->] | [-> ->]]; done |].
  split; [apply tuple_get_set_other |].
  rewrite tuple_get_set_eq. done.
Qed.

Lemma render_reads_what_simulation_wrote_example :
  drawn (renderLoop 1016 1600 900 three_particles)
  = take 3 (zip (tuple_get 1 (dynamicBuffers (renderLoop 1016 1600 900 three_particles)))
                (staticBuffer (renderLoop 1016 1600 900 three_particles))).
Proof.
  destruct (render_reads_what_simulation_wrote 1016 1600 900 three_particles)
    as (_ & _ & _ & _ & H & _).
  - apply Nat.ltb_lt. vm_compute. reflexivity.
  - exact H.
Defined.

Lemma staticBuffer_renderLoop (now w h : Q) (s : WebGPURenderer) :
  staticBuffer (renderLoop now w h s) = staticBuffer s.
Proof.
  destruct (decide (0 < particleCount s)).
  - by rewrite renderLoop_live.
  - rewrite renderLoop_idle by lia. done.
Qed.

Lemma particleCount_renderLoop (now w h : Q) (s : WebGPURenderer) :
  particleCount (renderLoop now w h s) = particleCount s.
Proof.
  destruct (decide (0 < particleCount s)).
  - by rewrite renderLoop_live.
  - rewrite renderLoop_idle by lia. done.
Qed.

Lemma frame_renderLoop (now w h : Q) (s : WebGPURenderer) :
  frame (renderLoop now w h s) = S (frame s).
Proof.
  destruct (decide (0 < particleCount s)).
  - by rewrite renderLoop_live.
  - rewrite renderLoop_idle by lia. done.
Qed.

Lemma tuple_set_lookup {A} (j k i : nat) (a : list A) (t : list A * list A) :
  a !! i = tuple_get j t !! i →
  tuple_get k (tuple_set j a t) !! i = tuple_get k t !! i.
Proof. destruct j, k, t; simpl; intros H; done. Qed.

Lemma dynamicBuffers_renderLoop_beyond (now w h : Q) (s : WebGPURenderer) (k i : nat) :
  u_particleCount (frame_uniforms now w h s) ≤ i →
  tuple_get k (dynamicBuffers (renderLoop now w h s)) !! i
  = tuple_get k (dynamicBuffers s) !! i.
Proof.
  intros Hi. destruct (decide (0 < particleCount s)).
  - rewrite renderLoop_live by done. cbn [dynamicBuffers].
    apply tuple_set_lookup. by apply dispatch_lookup_beyond.
  - rewrite renderLoop_idle by lia. done.
Qed.

(** ** Viewport bounds and reflection *)

(** *** Rounding to [f32] *)

Lemma round_half_even_near (m : Q) :
  (Qabs (inject_Z (round_half_even m) - m) <= 1 # 2)%Q.
Proof.
  unfold round_half_even.
  pose proof (Qfloor_le m) as Hlo. pose proof (Qlt_floor m) as Hhi.
  rewrite inject_Z_plus in Hhi. change (inject_Z 1) with 1%Q in Hhi.
  apply Qabs_Qle_condition.
  destruct (Qcompare_spec (m - inject_Z (Qfloor m)) (1 # 2)) as [He | Hl | Hg].
  - destruct (Z.even (Qfloor m)).
    + lra.
    + rewrite inject_Z_plus. change (inject_Z 1) with 1%Q. lra.
  - lra.
  - rewrite inject_Z_plus. change (inject_Z 1) with 1%Q. lra.
Qed.

Lemma inject_Z_pos (z : Z) : (0 < z)%Z → (0 < inject_Z z)%Q.
Proof. intros H. change 0%Q with (inject_Z 0). by rewrite <- Zlt_Qlt. Qed.

Lemma pow2_pos (k : Z) : (0 < 2 ^ k)%Q.
Proof. by apply Qpower_0_lt. Qed.

(** The lower half of the specification of [mag]. *)
Lemma mag_lower (x : Q) : ¬ (x == 0)%Q → (2 ^ (mag x - 1) <= Qabs x)%Q.
Proof.
  intros Hx. unfold mag.
  set (n := Z.abs (Qnum x)). set (d := Qden x).
  set (l := (Z.log2 n - Z.log2 (Z.pos d))%Z).
  destruct (Qle_bool (2 ^ l) (Qabs x)) eqn:Hb.
  - apply Qle_bool_iff in Hb. by replace (l + 1 - 1)%Z with l by lia.
  - assert (0 < n)%Z as Hn.
    { subst n. destruct x as [xn xd]. unfold Qeq in Hx. simpl in *. lia. }
    destruct (Z.log2_spec n Hn) as [Hn1 _].
    destruct (Z.log2_spec (Z.pos d) (Pos2Z.is_pos d)) as [_ Hd2].
    pose proof (Z.log2_nonneg n) as Ha. pose proof (Z.log2_nonneg (Z.pos d)) as Hb'.
    replace (l - 1)%Z with (Z.log2 n + - (Z.succ (Z.log2 (Z.pos d))))%Z by lia.
    rewrite Qpower_plus by done. rewrite Qpower_opp.
    change 2%Q with (inject_Z 2).
    rewrite <- !Zpower_Qpower by lia.
    set (A := (2 ^ Z.log2 n)%Z) in *. set (B := (2 ^ Z.succ (Z.log2 (Z.pos d)))%Z) in *.
    assert (0 < A)%Z by (subst A; apply Z.pow_pos_nonneg; lia).
    assert (0 < B)%Z by lia.
    assert (Qabs x == inject_Z n / inject_Z (Z.pos d))%Q as ->.
    { destruct x as [xn xd]. subst n d. simpl. rewrite Qmake_Qdiv. reflexivity. }
    apply Qle_shift_div_l; [apply inject_Z_pos; lia |].
    unfold Qdiv. 
    assert (inject_Z A * / inject_Z B * inject_Z (Z.pos d) <= inject_Z A)%Q.
    { rewrite <- Qmult_assoc. rewrite <- (Qmult_1_r (inject_Z A)) at 2.
      apply Qmult_le_l; [apply inject_Z_pos; lia |].
      rewrite Qmult_comm. apply Qle_shift_div_r; [apply inject_Z_pos; lia |].
      rewrite Qmult_1_l. rewrite <- Zle_Qle. lia. }
    assert (inject_Z A <= inject_Z n)%Q by (rewrite <- Zle_Qle; lia).
    lra.
Qed.

Lemma f32_zero (x : Q) : (x == 0)%Q → (f32 x == 0)%Q.
Proof.
  intros Hx. unfold f32. rewrite Qred_correct.
  set (q := (2 ^ ulp_exp x)%Q).
  assert (x / q == 0)%Q as Hm by (rewrite Hx; reflexivity).
  set (m := (x / q)%Q) in *.
  pose proof (round_half_even_near m) as Hr.
  apply Qabs_Qle_condition in Hr.
  assert (round_half_even m = 0%Z) as ->.
  { assert (inject_Z (round_half_even m) < inject_Z 1)%Q as H1
      by (change (inject_Z 1) with 1%Q; lra).
    assert (inject_Z (-1) < inject_Z (round_half_even m))%Q as H2
      by (change (inject_Z (-1)) with (-1)%Q; lra).
    rewrite <- Zlt_Qlt in H1, H2. lia. }
  ring.
Qed.

(** Round to nearest: half a unit in the last place, that is a relative
    error of [2^-24], or [2^-150] in the subnormal range. *)
Lemma f32_error (x : Q) :
  (Qabs (f32 x - x) <= (1 # 16777216) * Qabs x + 2 ^ (-150))%Q.
Proof.
  destruct (Qeq_dec x 0) as [Hx | Hx].
  { rewrite (f32_zero x Hx), Hx. by vm_compute. }
  unfold f32. rewrite Qred_correct.
  pose proof (mag_lower x Hx) as Hmag.
  unfold ulp_exp. set (e := Z.max (mag x - 24) (-149)).
  pose proof (pow2_pos e) as Hq. set (q := (2 ^ e)%Q) in *.
  pose proof (round_half_even_near (x / q)) as Hr.
  set (r := inject_Z (round_half_even (x / q))) in *.
  assert (r * q - x == (r - x / q) * q)%Q as -> by (field; lra).
  rewrite Qabs_Qmult, (Qabs_pos q) by lra.
  assert (Qabs (r - x / q) * q <= (1 # 2) * q)%Q as Hle.
  { apply Qmult_le_compat_r; [exact Hr | lra]. }
  assert ((1 # 2) * q <= (1 # 16777216) * Qabs x + 2 ^ (-150))%Q; [| lra].
  pose proof (Qabs_nonneg x) as Hax.
  destruct (Z.max_spec (mag x - 24) (-149)) as [[_ He] | [_ He]]; subst q e; rewrite He.
  - assert ((1 # 2) * 2 ^ (-149) == 2 ^ (-150))%Q as -> by (by vm_compute).
    assert (0 <= (1 # 16777216) * Qabs x)%Q by (apply Qmult_le_0_compat; lra).
    lra.
  - replace (mag x - 24)%Z with ((mag x - 1) + (-23))%Z by lia.
    rewrite Qpower_plus by done.
    assert (2 ^ (-23) == 1 # 8388608)%Q as -> by (by vm_compute).
    pose proof (pow2_pos (-150)). lra.
Qed.

(** Round to nearest is one of the roundings WGSL allows. *)
Lemma f32_rounds : rounds_to_f32 f32.
Proof.
  intros x. pose proof (f32_error x) as H. pose proof (Qabs_nonneg x) as Hx.
  assert (2 ^ (-150) <= f32_tiny)%Q by (by vm_compute).
  unfold f32_eps. lra.
Qed.

(** The kernel written exact is the kernel with no rounding. *)
Lemma simulate_fl_exact (u : Uniforms) (d : DynamicParticle) (st : StaticParticle) :
  simulate_fl (λ x, x) u d st = simulate u d st.
Proof. reflexivity. Qed.

Lemma slack_eq (bound : Q) :
  (slack bound * (1 - f32_eps) == f32_eps * bound + f32_tiny)%Q.
Proof. unfold slack, f32_eps. field. Qed.

Lemma f32_tiny_pos : (0 < f32_tiny)%Q.
Proof. apply pow2_pos. Qed.

Lemma rounds_nonneg (rnd : Q → Q) (x : Q) :
  rounds_to_f32 rnd → (0 <= x)%Q →
  (x * (1 - f32_eps) - f32_tiny <= rnd x ∧ rnd x <= x * (1 + f32_eps) + f32_tiny)%Q.
Proof.
  intros H Hx. specialize (H x). rewrite (Qabs_pos x) in H by done.
  apply Qabs_Qle_condition in H. lra.
Qed.

Lemma rounds_nonpos (rnd : Q → Q) (x : Q) :
  rounds_to_f32 rnd → (x <= 0)%Q →
  (x * (1 + f32_eps) - f32_tiny <= rnd x ∧ rnd x <= x * (1 - f32_eps) + f32_tiny)%Q.
Proof.
  intros H Hx. specialize (H x). rewrite (Qabs_neg x) in H by done.
  apply Qabs_Qle_condition in H. lra.
Qed.

(** One axis: the coordinate written back is inside up to [slack]. *)
Lemma reflect_fl_in_bounds (rnd : Q → Q) (p v half bound : Q) :
  rounds_to_f32 rnd → (0 <= half)%Q → (half <= bound)%Q →
  inside_axis bound half (slack bound) (reflect_fl rnd p v half bound).1.
Proof.
  intros Hr H0 Hfit. unfold inside_axis, reflect_fl.
  pose proof (slack_eq bound) as Hs. pose proof f32_tiny_pos as Ht.
  set (s := slack bound) in *. set (t := f32_tiny) in *.
  unfold f32_eps in *.
  destruct (Qlt_le_dec (rnd (p - half)%Q) (- bound)%Q) as [Hl | Hl]; cbn [fst].
  { destruct (rounds_nonpos rnd (- bound + half)%Q Hr) as [? ?]; [lra |].
    fold t in H, H1. unfold f32_eps in *. lra. }
  destruct (Qlt_le_dec bound (rnd (p + half)%Q)) as [Hu | Hu]; cbn [fst].
  { destruct (rounds_nonneg rnd (bound - half)%Q Hr) as [? ?]; [lra |].
    fold t in H, H1. unfold f32_eps in *. lra. }
  split.
  - destruct (Qlt_le_dec (p - half)%Q 0%Q) as [Hn | Hn]; [| lra].
    destruct (rounds_nonpos rnd (p - half)%Q Hr) as [? ?]; [lra |].
    fold t in H, H1. unfold f32_eps in *. lra.
  - destruct (Qlt_le_dec 0%Q (p + half)%Q) as [Hn | Hn]; [| lra].
    destruct (rounds_nonneg rnd (p + half)%Q Hr) as [? ?]; [lra |].
    fold t in H, H1. unfold f32_eps in *. lra.
Qed.

(** C6, as stated, fails on the kernel in [f32] with round to nearest:
    the particle of [corner_dynamic] has a half extent that fits
    ([0.3 <= 2] and [0.15 <= 1] in [f32]) and crosses the right and
    the top edge; the clamp writes [f32 (2 - half_width)] and
    [f32 (1 - half_height)], both ties that round up, so the position
    written lies beyond the shrunk bound on both axes (by [2^-24] and
    [2^-25]). *)
Lemma clamp_rounds_past_shrunk_bound :
  let u := corner_uniforms in
  let st := corner_static in
  let d' := simulate_fl f32 u corner_dynamic st in
  (half_width_fl f32 st <= u_aspectRatio u)%Q
  ∧ (half_height_fl f32 st <= 1)%Q
  ∧ (vec_x (pos d') == u_aspectRatio u - half_width_fl f32 st + (1 # 16777216))%Q
  ∧ (vec_y (pos d') == 1 - half_height_fl f32 st + (1 # 33554432))%Q
  ∧ ¬ inside_viewport_fl f32 no_slack u st d'.
Proof.
  intros u st d'.
  assert (vec_x (pos d') == u_aspectRatio u - half_width_fl f32 st + (1 # 16777216))%Q
    as Hx by (by vm_compute).
  assert (vec_y (pos d') == 1 - half_height_fl f32 st + (1 # 33554432))%Q
    as Hy by (by vm_compute).
  split; [by vm_compute |]. split; [by vm_compute |].
  split; [exact Hx |]. split; [exact Hy |].
  unfold inside_viewport_fl, inside_axis, no_slack. intros [[_ Hin] _].
  rewrite Hx in Hin. lra.
Qed.

(** C6, amended.  For any rounding WGSL allows, a particle whose half
    extent (as the kernel computes it) is not negative and fits in the
    viewport is written, by the simulation step, at a position inside
    the viewport shrunk by the half extent up to the rounding of one
    operation: [slack a] on the x axis and [slack 1] on the y axis,
    where [slack b = (b * 2^-23 + 2^-126) / (1 - 2^-23)]. *)
Theorem position_inside_viewport_up_to_rounding
    (rnd : Q → Q) (u : Uniforms) (d : DynamicParticle) (st : StaticParticle) :
  rounds_to_f32 rnd →
  (0 <= half_width_fl rnd st)%Q →
  (half_width_fl rnd st <= u_aspectRatio u)%Q →
  (0 <= half_height_fl rnd st)%Q →
  (half_height_fl rnd st <= 1)%Q →
  inside_viewport_fl rnd slack u st (simulate_fl rnd u d st).
Proof.
  intros Hr Hx0 Hx Hy0 Hy. unfold inside_viewport_fl, simulate_fl.
  cbn [pos vec_x vec_y]. split; by apply reflect_fl_in_bounds.
Qed.

Lemma position_inside_viewport_up_to_rounding_example :
  inside_viewport_fl f32 slack corner_uniforms corner_static
    (simulate_fl f32 corner_uniforms corner_dynamic corner_static).
Proof.
  apply (position_inside_viewport_up_to_rounding f32 corner_uniforms
           corner_dynamic corner_static).
  - exact f32_rounds.
  - by vm_compute.
  - by vm_compute.
  - by vm_compute.
  - by vm_compute.
Defined.



(** ** Spawning *)

Lemma addParticle_loop_data (cnt : Z) (r : Q) (tid : nat) (s : WebGPURenderer) :
  particle_data (addParticle_loop cnt r tid s) = particle_data s
  ∧ console (addParticle_loop cnt r tid s) = console s.
Proof.
  unfold addParticle_loop. destruct (0 <? cnt)%Z; [| done].
  by destruct (loadTexture _ _).
Qed.

Lemma addParticle_loop_task (cnt : Z) (r : Q) (tid : nat) (s : WebGPURenderer) :
  tid < length (tasks s) →
  ((0 < cnt)%Z → ∃ a, tasks (addParticle_loop cnt r tid s) !! tid
                      = Some (Suspended (cnt - 1) a)) ∧
  ((cnt ≤ 0)%Z → tasks (addParticle_loop cnt r tid s) !! tid = Some (Done (inr ()))).
Proof.
  intros Hlen. unfold addParticle_loop. split; intros Hc.
  - rewrite (proj2 (Z.ltb_lt 0 cnt)) by done.
    destruct (loadTexture _ _) as [a ld]. exists a. simpl.
    by apply list_lookup_insert_eq.
  - rewrite (proj2 (Z.ltb_ge 0 cnt)) by done. simpl.
    by apply list_lookup_insert_eq.
Qed.

Lemma addParticle_data (rc ru : Q) (s : WebGPURenderer) :
  particle_data (addParticle rc ru s) = particle_data s.
Proof.
  unfold addParticle. case_decide; [done |].
  by rewrite (proj1 (addParticle_loop_data _ _ _ _)).
Qed.

(** A call at the limit returns at once. *)
Lemma addParticle_at_limit (rc ru : Q) (s : WebGPURenderer) :
  MAX_PARTICLES ≤ particleCount s → addParticle rc ru s = s.
Proof. intros H. unfold addParticle. by rewrite decide_True. Qed.

Lemma particleCount_step (e : Event) (s : WebGPURenderer) :
  particleCount s ≤ particleCount (step e s).
Proof.
  destruct e as [rc ru | tid rnd | p b | p | p | now w h]; cbn [step];
    try (unfold set_loader; simpl; done).
  - pose proof (addParticle_data rc ru s) as E. unfold particle_data in E.
    injection E as E _. lia.
  - unfold addParticle_resumed.
    destruct (tasks s !! tid) as [[cnt a | r] |]; try done.
    destruct (poll a (textureLoader s)) as [[error | texture] |]; try done.
    + pose proof (proj1 (addParticle_loop_data cnt (rnd_image rnd) tid (spawn_failed error s))) as E.
      unfold particle_data in E. injection E as E _. simpl in E. lia.
    + pose proof (proj1 (addParticle_loop_data cnt (rnd_image rnd) tid (spawn rnd texture s))) as E.
      unfold particle_data in E. injection E as E _. simpl in E. lia.
  - by rewrite particleCount_renderLoop.
Qed.

Lemma staticBuffer_step (e : Event) (s : WebGPURenderer) (i : nat) :
  i < particleCount s → staticBuffer (step e s) !! i = staticBuffer s !! i.
Proof.
  intros Hi.
  destruct e as [rc ru | tid rnd | p b | p | p | now w h]; cbn [step];
    try (unfold set_loader; simpl; done).
  - pose proof (addParticle_data rc ru s) as E. unfold particle_data in E.
    by injection E as _ _ -> _.
  - unfold addParticle_resumed.
    destruct (tasks s !! tid) as [[cnt a | r] |]; try done.
    destruct (poll a (textureLoader s)) as [[error | texture] |]; try done.
    + pose proof (proj1 (addParticle_loop_data cnt (rnd_image rnd) tid (spawn_failed error s))) as E.
      unfold particle_data in E. by injection E as _ _ -> _.
    + pose proof (proj1 (addParticle_loop_data cnt (rnd_image rnd) tid (spawn rnd texture s))) as E.
      unfold particle_data in E. injection E as _ _ -> _. simpl.
      apply list_lookup_insert_ne. lia.
  - by rewrite staticBuffer_renderLoop.
Qed.

Lemma staticBuffer_run (evs : list Event) (s : WebGPURenderer) (i : nat) :
  i < particleCount s → staticBuffer (run evs s) !! i = staticBuffer s !! i.
Proof.
  revert s. induction evs as [|e evs IH]; intros s Hi; simpl; [done |].
  rewrite IH.
  - by apply staticBuffer_step.
  - pose proof (particleCount_step e s). lia.
Qed.

Lemma staticBuffer_frames (fs : list (Q * Q * Q)) (s : WebGPURenderer) :
  staticBuffer (run (frames fs) s) = staticBuffer s.
Proof.
  revert s. induction fs as [|f fs IH]; intros s; simpl; [done |].
  unfold frames in IH. rewrite IH. apply staticBuffer_renderLoop.
Qed.

(** C8.  The static data written when a particle is spawned at index
    [i] is read back unchanged after any number of frames, and indeed
    after any further events: a frame leaves the whole static buffer as
    it was, and later spawns write above [i]. *)
Theorem static_data_round_trip
    (s : WebGPURenderer) (rnd : SpawnRandom) (texture : LoadedTexture) :
  particleCount s < length (staticBuffer s) →
  let i := particleCount s in
  let s1 := spawn rnd texture s in
  staticBuffer s1 !! i = Some (staticData rnd texture) ∧
  (∀ fs, staticBuffer (run (frames fs) s1) = staticBuffer s1) ∧
  (∀ now w h s0, staticBuffer (renderLoop now w h s0) = staticBuffer s0) ∧
  (∀ evs, staticBuffer (run evs s1) !! i = Some (staticData rnd texture)).
Proof.
  intros Hlen i s1.
  assert (staticBuffer s1 !! i = Some (staticData rnd texture)) as Hw.
  { subst s1 i. simpl. by apply list_lookup_insert_eq. }
  split; [done |].
  split; [intros fs; apply staticBuffer_frames |].
  split; [intros now w h s0; apply staticBuffer_renderLoop |].
  intros evs. rewrite staticBuffer_run; [done |]. subst s1 i. simpl. lia.
Qed.

Lemma static_data_round_trip_example :
  let texture := {| textureIndex := 0; bitmap := bmp_a |} in
  staticBuffer (run (frames two_frames)
                    (spawn spawn_rnd texture three_particles)) !! 3
  = Some (staticData spawn_rnd texture).
Proof.
  intros texture.
  destruct (static_data_round_trip three_particles spawn_rnd texture) as (_ & _ & _ & H).
  - apply Nat.ltb_lt. vm_compute. reflexivity.
  - apply (H (frames two_frames)).
Defined.

(** C10.  An invocation whose index is not below the [particleCount]
    uniform returns without writing, so a dispatch, and the frame that
    issues it, leave the entries of both dynamic buffers at such indices
    as they were. *)
Theorem entries_beyond_count_untouched
    (now w h : Q) (s : WebGPURenderer) (i : nat) :
  let u := frame_uniforms now w h s in
  u_particleCount u ≤ i →
  (∀ din stat out, main u din stat i out = out) ∧
  (∀ workgroups din stat (out : list DynamicParticle),
     dispatchWorkgroups workgroups u din stat out !! i = out !! i) ∧
  (∀ k, tuple_get k (dynamicBuffers (renderLoop now w h s)) !! i
        = tuple_get k (dynamicBuffers s) !! i).
Proof.
  intros u Hi.
  split; [intros; by apply main_lookup_guard |].
  split; [intros; by apply dispatch_lookup_beyond |].
  intros k. by apply dynamicBuffers_renderLoop_beyond.
Qed.

Lemma entries_beyond_count_untouched_example :
  tuple_get 1 (dynamicBuffers (renderLoop 1016 1600 900 three_particles)) !! 3
  = tuple_get 1 (dynamicBuffers three_particles) !! 3.
Proof.
  destruct (entries_beyond_count_untouched 1016 1600 900 three_particles 3) as (_ & _ & H).
  - apply Nat.leb_le. vm_compute. reflexivity.
  - apply (H 1).
Defined.

(** ** Failure of the texture load inside [addParticle] *)

Lemma addParticle_loop_tasks (cnt : Z) (r : Q) (tid : nat) (s : WebGPURenderer) :
  ∃ st, tasks (addParticle_loop cnt r tid s) = <[tid := st]> (tasks s)
        ∧ ¬ surfaced_to_caller st.
Proof.
  unfold addParticle_loop. destruct (0 <? cnt)%Z.
  - destruct (loadTexture _ _) as [a ld]. eexists. split; [done |].
    intros [e He]. done.
  - eexists. split; [done |]. intros [e He]. done.
Qed.

Lemma never_rejected_step (e : Event) (s : WebGPURenderer) :
  never_rejected s → never_rejected (step e s).
Proof.
  unfold never_rejected. intros H.
  destruct e as [rc ru | tid rnd | p b | p | p | now w h]; cbn [step];
    try (unfold set_loader; simpl; done).
  - unfold addParticle. case_decide; [done |].
    destruct (addParticle_loop_tasks (Math_round (rc * 3 + 2.5)) ru (length (tasks s))
                (push_task (Done (inr ())) s)) as (st & -> & Hst).
    apply Forall_insert; [| done]. simpl. apply Forall_app. split; [done |].
    apply Forall_singleton. intros [e He]. done.
  - unfold addParticle_resumed.
    destruct (tasks s !! tid) as [[cnt a | r] |]; try done.
    destruct (poll a (textureLoader s)) as [[error | texture] |]; try done.
    + destruct (addParticle_loop_tasks cnt (rnd_image rnd) tid (spawn_failed error s))
        as (st & -> & Hst).
      by apply Forall_insert.
    + destruct (addParticle_loop_tasks cnt (rnd_image rnd) tid (spawn rnd texture s))
        as (st & -> & Hst).
      by apply Forall_insert.
  - destruct (decide (0 < particleCount s)).
    + by rewrite renderLoop_live.
    + rewrite renderLoop_idle by lia. done.
Qed.

Lemma never_rejected_run (evs : list Event) (s : WebGPURenderer) :
  never_rejected s → never_rejected (run evs s).
Proof.
  revert s. induction evs as [|e evs IH]; intros s H; simpl; [done |].
  by apply IH, never_rejected_step.
Qed.

(** C9, as the code has it.  When the awaited texture load of a spawn
    has failed, the continuation writes no particle data, leaves
    [particleCount], the buffers, the uniforms and the frame state as
    they were, and appends the error to the console; the call then goes
    on with the rest of its batch or returns normally: no [addParticle]
    promise is ever rejected. *)
Theorem failed_spawn_is_abandoned_and_logged
    (s : WebGPURenderer) (tid : nat) (rnd : SpawnRandom)
    (cnt : Z) (a : Awaited) (error : Error) :
  tasks s !! tid = Some (Suspended cnt a) →
  poll a (textureLoader s) = Some (inl error) →
  let s' := addParticle_resumed tid rnd s in
  particle_data s' = particle_data s ∧
  console s' = console s ++ [error] ∧
  ((0 < cnt)%Z → ∃ a', tasks s' !! tid = Some (Suspended (cnt - 1) a')) ∧
  ((cnt ≤ 0)%Z → tasks s' !! tid = Some (Done (inr ()))) ∧
  (∀ now evs tid' st, tasks (run evs (newRenderer now)) !! tid' = Some st →
                      ¬ surfaced_to_caller st).
Proof.
  intros Htid Hpoll s'. subst s'. unfold addParticle_resumed. rewrite Htid, Hpoll.
  destruct (addParticle_loop_data cnt (rnd_image rnd) tid (spawn_failed error s))
    as [Hd Hc].
  split; [by rewrite Hd |]. split; [by rewrite Hc |].
  assert (tid < length (tasks (spawn_failed error s))) as Hlen.
  { simpl. by eapply lookup_lt_Some. }
  destruct (addParticle_loop_task cnt (rnd_image rnd) tid (spawn_failed error s) Hlen)
    as [H1 H2].
  split; [done |]. split; [done |].
  intros now evs tid' st Hst.
  assert (never_rejected (run evs (newRenderer now))) as Hnr.
  { apply never_rejected_run. unfold never_rejected. simpl. constructor. }
  unfold never_rejected in Hnr. rewrite Forall_lookup in Hnr. by eapply Hnr.
Qed.

Lemma failed_spawn_is_abandoned_and_logged_example :
  let s := run [EvAddParticle 0 0; EvFetchFail 0; EvLoadTextureResume 0]
               (newRenderer 1000) in
  let s' := addParticle_resumed 0 spawn_rnd s in
  particle_data s' = particle_data s ∧
  console s' = console s ++ [LoadFailed first_url].
Proof.
  intros s s'.
  destruct (failed_spawn_is_abandoned_and_logged s 0 spawn_rnd 2
              (AwOwner 0) (LoadFailed first_url)) as (H1 & H2 & _).
  - vm_compute. reflexivity.
  - vm_compute. reflexivity.
  - split; [exact H1 | exact H2].
Defined.

(** C9 as stated fails: every load of the click fails, three errors are
    logged, and the promise of the call is fulfilled, not rejected. *)
Lemma load_failure_not_surfaced :
  let s := run failing_click (newRenderer 1000) in
  console s = [LoadFailed first_url; LoadFailed first_url; LoadFailed first_url] ∧
  particleCount s = 0 ∧
  tasks s = [Done (inr ())] ∧
  ¬ (∃ st, tasks s !! 0 = Some st ∧ surfaced_to_caller st).
Proof.
  split; [by vm_compute |]. split; [by vm_compute |]. split; [by vm_compute |].
  intros (st & Hst & e & ->). vm_compute in Hst. discriminate Hst.
Qed.

(** ** The particle limit *)

Lemma run_app (evs1 evs2 : list Event) (s : WebGPURenderer) :
  run (evs1 ++ evs2) s = run evs2 (run evs1 s).
Proof. revert s. induction evs1 as [|e evs1 IH]; intros s; simpl; [done | apply IH]. Qed.

Lemma addParticle_loop_cached (t : LoadedTexture) (cnt : Z) (tid : nat)
    (s : WebGPURenderer) :
  loadedTextures (textureLoader s) !! first_url = Some t →
  addParticle_loop cnt 0 tid s =
  set_loader_task (textureLoader s) tid
    (if (0 <? cnt)%Z then Suspended (cnt - 1) (AwValue t) else Done (inr ())) s.
Proof.
  intros Ht. unfold addParticle_loop. destruct (0 <? cnt)%Z; [| done].
  change (default "undefined"%string (IMAGE_URLS !! _)) with first_url.
  unfold loadTexture. by rewrite Ht.
Qed.

Lemma addParticle_resumed_cached (t : LoadedTexture) (cnt : Z) (n k tid : nat)
    (s : WebGPURenderer) :
  cached t n k s → tasks s !! tid = Some (Suspended cnt (AwValue t)) →
  cached t (S n) k (addParticle_resumed tid spawn_rnd s)
  ∧ tasks (addParticle_resumed tid spawn_rnd s) !! tid
    = Some (if (0 <? cnt)%Z then Suspended (cnt - 1) (AwValue t) else Done (inr ())).
Proof.
  intros (Hn & Ht & Hk & Hlen) Htid. unfold addParticle_resumed.
  rewrite Htid. cbn [poll rnd_image spawn_rnd].
  rewrite (addParticle_loop_cached t) by done.
  unfold cached. simpl. rewrite !length_insert.
  repeat split; try done; [by rewrite Hn |].
  apply list_lookup_insert_eq. by eapply lookup_lt_Some.
Qed.

Lemma batch_of_three_cached (t : LoadedTexture) (n k : nat) (s : WebGPURenderer) :
  cached t n k s → n < MAX_PARTICLES →
  cached t (n + 3) (S k) (run (batch_of_three k) s).
Proof.
  intros Hc Hlt. pose proof Hc as (Hn & Ht & Hk & Hlen).
  unfold batch_of_three. cbn [run step].
  assert (cached t n (S k) (addParticle 0 0 s)
          ∧ tasks (addParticle 0 0 s) !! k = Some (Suspended 2 (AwValue t))) as [H0 T0].
  { unfold addParticle. rewrite decide_False by lia.
    change (Math_round (0 * 3 + 2.5)) with 3%Z.
    rewrite (addParticle_loop_cached t) by done.
    unfold cached. simpl. rewrite length_insert, length_app. simpl.
    repeat split; try done; [lia |].
    rewrite Hk. apply list_lookup_insert_eq. rewrite length_app. simpl. lia. }
  destruct (addParticle_resumed_cached t 2 n (S k) k _ H0 T0) as [H1 T1].
  destruct (addParticle_resumed_cached t _ (S n) (S k) k _ H1 T1) as [H2 T2].
  destruct (addParticle_resumed_cached t _ (S (S n)) (S k) k _ H2 T2) as [H3 T3].
  replace (n + 3) with (S (S (S n))) by lia. exact H3.
Qed.

Lemma clicks_cached (t : LoadedTexture) (m n k : nat) (s : WebGPURenderer) :
  cached t n k s → n + 3 * m ≤ MAX_PARTICLES + 2 →
  cached t (n + 3 * m) (k + m) (run (flat_map batch_of_three (seq k m)) s).
Proof.
  revert n k s. induction m as [|m IH]; intros n k s Hc Hle.
  - simpl. by rewrite !Nat.add_0_r.
  - cbn [seq flat_map]. rewrite run_app.
    replace (n + 3 * S m) with ((n + 3) + 3 * m) by lia.
    replace (k + S m) with (S k + m) by lia.
    apply IH; [| lia]. apply batch_of_three_cached; [done | lia].
Qed.

Lemma length_staticBuffer_step (e : Event) (s : WebGPURenderer) :
  length (staticBuffer (step e s)) = length (staticBuffer s).
Proof.
  destruct e as [rc ru | tid rnd | p b | p | p | now w h]; cbn [step];
    try (unfold set_loader; simpl; done).
  - pose proof (addParticle_data rc ru s) as E. unfold particle_data in E.
    by injection E as _ _ -> _.
  - unfold addParticle_resumed.
    destruct (tasks s !! tid) as [[cnt a | r] |]; try done.
    destruct (poll a (textureLoader s)) as [[error | texture] |]; try done.
    + pose proof (proj1 (addParticle_loop_data cnt (rnd_image rnd) tid (spawn_failed error s))) as E.
      unfold particle_data in E. by injection E as _ _ -> _.
    + pose proof (proj1 (addParticle_loop_data cnt (rnd_image rnd) tid (spawn rnd texture s))) as E.
      unfold particle_data in E. injection E as _ _ -> _.
      cbn [spawn staticBuffer]. by rewrite length_insert.
  - by rewrite staticBuffer_renderLoop.
Qed.

Lemma length_staticBuffer_run (evs : list Event) (now : Q) :
  length (staticBuffer (run evs (newRenderer now))) = MAX_PARTICLES.
Proof.
  assert (∀ s, length (staticBuffer (run evs s)) = length (staticBuffer s)) as H.
  { induction evs as [|e evs IH]; intros s; cbn [run]; [done |].
    by rewrite IH, length_staticBuffer_step. }
  rewrite H. cbn [newRenderer staticBuffer]. apply length_replicate.
Qed.

Lemma three_particles_cached :
  cached {| textureIndex := 0; bitmap := bmp_a |} 3 1 three_particles.
Proof.
  unfold cached. split; [by vm_compute |]. split; [by vm_compute |].
  split; [by vm_compute |]. apply length_staticBuffer_run.
Qed.

(** C3.  The limit is tested once per call, not once per particle: a
    call made with one free slot left writes its three particles and
    leaves [particleCount] two above [MAX_PARTICLES], the buffers still
    holding [MAX_PARTICLES] entries. *)
Theorem addParticle_overshoots_limit :
  let s := run clicks_to_9999 (newRenderer 1000) in
  let s' := run (batch_of_three 3333) s in
  particleCount s + 1 = MAX_PARTICLES ∧
  particleCount s' = MAX_PARTICLES + 2 ∧
  MAX_PARTICLES < particleCount s' ∧
  length (staticBuffer s') = MAX_PARTICLES.
Proof.
  intros s s'.
  assert (cached {| textureIndex := 0; bitmap := bmp_a |} (3 + 3 * 3332) (1 + 3332) s)
    as Hs.
  { subst s. unfold clicks_to_9999. rewrite run_app.
    apply clicks_cached; [apply three_particles_cached |].
    unfold MAX_PARTICLES. lia. }
  assert (cached {| textureIndex := 0; bitmap := bmp_a |} (3 + 3 * 3332 + 3) (S (1 + 3332)) s')
    as Hs'.
  { subst s'. apply (batch_of_three_cached _ _ (1 + 3332)); [done |].
    unfold MAX_PARTICLES. lia. }
  destruct Hs as (Hn & _). destruct Hs' as (Hn' & _ & _ & Hlen).
  rewrite Hn, Hn'.
  split; [unfold MAX_PARTICLES; lia |].
  split; [unfold MAX_PARTICLES; lia |].
  split; [unfold MAX_PARTICLES; lia | exact Hlen].
Qed.

(** ** The page's traces seen from the loader and from the frame counter *)

Lemma lrun_app (evs1 evs2 : list LoaderEvent) (s : TextureLoader) :
  lrun (evs1 ++ evs2) s = lrun evs2 (lrun evs1 s).
Proof. revert s. induction evs1 as [|e evs1 IH]; intros s; simpl; [done | apply IH]. Qed.

Lemma addParticle_loop_loader (cnt : Z) (r : Q) (tid : nat) (s : WebGPURenderer) :
  ∃ levs, textureLoader (addParticle_loop cnt r tid s) = lrun levs (textureLoader s).
Proof.
  unfold addParticle_loop. destruct (0 <? cnt)%Z.
  - set (url := default "undefined"%string _).
    exists [Call url]. simpl. by destruct (loadTexture url (textureLoader s)).
  - by exists [].
Qed.

Lemma step_loader (e : Event) (s : WebGPURenderer) :
  ∃ levs, textureLoader (step e s) = lrun levs (textureLoader s).
Proof.
  destruct e as [rc ru | tid rnd | p b | p | p | now w h]; cbn [step].
  - unfold addParticle. case_decide; [by exists [] |].
    apply (addParticle_loop_loader _ _ _ (push_task _ s)).
  - unfold addParticle_resumed.
    destruct (tasks s !! tid) as [[cnt a | r] |]; try by exists [].
    destruct (poll a (textureLoader s)) as [[error | texture] |]; try by exists [].
    + apply (addParticle_loop_loader _ _ _ (spawn_failed error s)).
    + apply (addParticle_loop_loader _ _ _ (spawn rnd texture s)).
  - by exists [FetchOk p b].
  - by exists [FetchFail p].
  - by exists [Resume p].
  - exists []. destruct (decide (0 < particleCount s)).
    + by rewrite renderLoop_live.
    + rewrite renderLoop_idle by lia. done.
Qed.

(** The loader inside the page only ever sees a loader trace, so what
    holds on every loader trace holds in the page. *)
Lemma run_loader (evs : list Event) (s : WebGPURenderer) :
  ∃ levs, textureLoader (run evs s) = lrun levs (textureLoader s).
Proof.
  revert s. induction evs as [|e evs IH]; intros s; simpl; [by exists [] |].
  destruct (IH (step e s)) as [l2 E2]. destruct (step_loader e s) as [l1 E1].
  exists (l1 ++ l2). by rewrite lrun_app, <- E1.
Qed.

(** The loader of the page satisfies the invariant of the loader, and so
    never has two fetches of one url in flight, whatever the clicks. *)
Lemma page_loader_inv (evs : list Event) (now : Q) :
  loader_inv (textureLoader (run evs (newRenderer now))).
Proof.
  destruct (run_loader evs (newRenderer now)) as [levs ->].
  apply reachable_inv.
Qed.

Lemma page_dedup (evs : list Event) (now : Q) (url : string) :
  let ld := textureLoader (run evs (newRenderer now)) in
  inflight url ld ≤ 1 ∧ uploads url ld ≤ 1.
Proof.
  intros ld. pose proof (page_loader_inv evs now) as Hinv. fold ld in Hinv.
  split; [by apply inflight_le_1 |].
  rewrite uploads_loaded by done. destruct (loadedTextures ld !! url); lia.
Qed.

(** Two clicks that overlap and pick the first and the second image:
    both particles are written with texture index 0, and layer 0 holds
    the second image. *)
Lemma overlapping_clicks_share_layer :
  let s := run overlapping_clicks (newRenderer 1000) in
  texIndex <$> staticBuffer s !! 0 = Some 0 ∧
  texIndex <$> staticBuffer s !! 1 = Some 0 ∧
  aspectRatio <$> staticBuffer s !! 0 = Some (512 / 256)%Q ∧
  aspectRatio <$> staticBuffer s !! 1 = Some (300 / 300)%Q ∧
  textureArray (textureLoader s) !! 0 = Some bmp_b.
Proof. repeat split; vm_compute; reflexivity. Qed.

(** [frame] counts the calls of [renderLoop]. *)
Lemma frame_run (evs : list Event) (s : WebGPURenderer) :
  frame (run evs s) = frame s + count is_frame evs.
Proof.
  revert s. induction evs as [|e evs IH]; intros s; simpl; [lia |].
  rewrite IH. destruct e as [rc ru | tid rnd | p b | p | p | now w h]; cbn [step is_frame].
  - pose proof (addParticle_data rc ru s) as E. unfold particle_data in E.
    injection E as _ _ _ _ -> _. lia.
  - unfold addParticle_resumed.
    destruct (tasks s !! tid) as [[cnt a | r] |]; try lia.
    destruct (poll a (textureLoader s)) as [[error | texture] |]; try lia.
    + pose proof (proj1 (addParticle_loop_data cnt (rnd_image rnd) tid (spawn_failed error s))) as E.
      unfold particle_data in E. injection E as _ _ _ _ -> _. simpl. lia.
    + pose proof (proj1 (addParticle_loop_data cnt (rnd_image rnd) tid (spawn rnd texture s))) as E.
      unfold particle_data in E. injection E as _ _ _ _ -> _. simpl. lia.
  - simpl. lia.
  - simpl. lia.
  - simpl. lia.
  - rewrite frame_renderLoop. lia.
Qed.

(** ** More of the kernel and of the page *)

Lemma Qabs_Qabs (v : Q) : Qabs (Qabs v) = Qabs v.
Proof. destruct v as [a b]. simpl. f_equal. lia. Qed.

Lemma Qabs_opp_Qabs (v : Q) : Qabs (- Qabs v) = Qabs v.
Proof. destruct v as [a b]. simpl. f_equal. lia. Qed.

Lemma reflect_fl_speed (rnd : Q → Q) (p v half bound : Q) :
  Qabs (reflect_fl rnd p v half bound).2 = Qabs v.
Proof.
  unfold reflect_fl.
  destruct (Qlt_le_dec (rnd (p - half)%Q) (- bound)%Q); cbn [snd]; [apply Qabs_Qabs |].
  destruct (Qlt_le_dec bound (rnd (p + half)%Q)); cbn [snd]; [apply Qabs_opp_Qabs | done].
Qed.

(** X14.  The simulation step never changes the magnitude of a velocity
    component, whatever the rounding and whether or not the particle is
    reflected: a particle neither speeds up nor slows down, on either
    axis. *)
Theorem simulation_step_preserves_speed
    (rnd : Q → Q) (u : Uniforms) (d : DynamicParticle) (st : StaticParticle) :
  Qabs (vec_x (vel (simulate_fl rnd u d st))) = Qabs (vec_x (vel d))
  ∧ Qabs (vec_y (vel (simulate_fl rnd u d st))) = Qabs (vec_y (vel d)).
Proof. unfold simulate_fl. cbn [vel vec_x vec_y]. by rewrite !reflect_fl_speed. Qed.

Lemma buttonText_renderLoop (now w h : Q) (s : WebGPURenderer) :
  buttonText (renderLoop now w h s) = buttonText s.
Proof.
  destruct (decide (0 < particleCount s)).
  - by rewrite renderLoop_live.
  - rewrite renderLoop_idle by lia. done.
Qed.

Lemma buttonText_step (e : Event) (s : WebGPURenderer) :
  buttonText s = particleCount s → buttonText (step e s) = particleCount (step e s).
Proof.
  intros H.
  destruct e as [rc ru | tid rnd | p b | p | p | now w h]; cbn [step];
    try (unfold set_loader; simpl; done).
  - pose proof (addParticle_data rc ru s) as E. unfold particle_data in E.
    injection E as -> _ _ _ _ _ _ ->. done.
  - unfold addParticle_resumed.
    destruct (tasks s !! tid) as [[cnt a | r] |]; try done.
    destruct (poll a (textureLoader s)) as [[error | texture] |]; try done.
    + pose proof (proj1 (addParticle_loop_data cnt (rnd_image rnd) tid (spawn_failed error s))) as E.
      unfold particle_data in E. injection E as -> _ _ _ _ _ _ ->. done.
    + pose proof (proj1 (addParticle_loop_data cnt (rnd_image rnd) tid (spawn rnd texture s))) as E.
      unfold particle_data in E. injection E as -> _ _ _ _ _ _ ->. done.
  - by rewrite buttonText_renderLoop, particleCount_renderLoop.
Qed.

(** X15.  On the page, as soon as there is a particle, the number shown
    on the button is the number of particles: after any sequence of
    clicks, fetch outcomes, continuations and frames. *)
Theorem button_shows_particle_count (now : Q) (evs : list Event) :
  let s := run evs (newRenderer now) in
  0 < particleCount s → buttonText s = particleCount s.
Proof.
  intros s _. subst s.
  assert (buttonText (newRenderer now) = particleCount (newRenderer now)) as H by done.
  revert H. generalize (newRenderer now).
  induction evs as [|e evs IH]; intros s H; [done |].
  cbn [run]. by apply IH, buttonText_step.
Qed.

Lemma button_shows_particle_count_example :
  buttonText three_particles = particleCount three_particles.
Proof.
  apply (button_shows_particle_count 1000 first_batch).
  apply Nat.ltb_lt. vm_compute. reflexivity.
Defined.

(** ** The voice loader *)

Section voice.
Import voiceLoader.

Lemma Map_keys_set_new (k : nat) (v : AudioBuffer) (m : list (nat * AudioBuffer)) :
  k ∉ Map_keys m → Map_keys (Map_set k v m) = Map_keys m ++ [k].
Proof.
  unfold Map_keys. induction m as [|[k' v'] m IH]; intros Hk; [done |].
  rewrite fmap_cons in Hk. apply not_elem_of_cons in Hk as [Hne Hk].
  cbn [Map_set]. rewrite decide_False by done.
  rewrite !fmap_cons, IH by done. done.
Qed.

Lemma Map_get_set_new (k : nat) (v : AudioBuffer) (m : list (nat * AudioBuffer)) :
  Map_get k (Map_set k v m) = Some v.
Proof.
  induction m as [|[k' v'] m IH]; simpl.
  - by rewrite decide_True.
  - destruct (decide (k' = k)) as [-> | Hne]; simpl.
    + by rewrite decide_True.
    + by rewrite decide_False.
Qed.

Lemma Map_get_Some (k : nat) (m : list (nat * AudioBuffer)) :
  k ∈ Map_keys m → ∃ v, Map_get k m = Some v ∧ (k, v) ∈ m.
Proof.
  unfold Map_keys. induction m as [|[k' v'] m IH]; simpl; intros Hk.
  - by apply elem_of_nil in Hk.
  - destruct (decide (k' = k)) as [-> | Hne].
    + exists v'. split; [done | left].
    + apply elem_of_cons in Hk as [-> | Hk]; [done |].
      destruct (IH Hk) as (v & ? & ?). exists v. split; [done | by right].
Qed.

Lemma Map_has_true (k : nat) (m : list (nat * AudioBuffer)) :
  Map_has k m = true ↔ k ∈ Map_keys m.
Proof. unfold Map_has. apply bool_decide_eq_true. Qed.

Lemma unloaded_true (s : VoiceLoader) (i : nat) :
  unloaded s i = true ↔ (i ∉ Map_keys (loadedAudios s)) ∧ (i ∉ loading s).
Proof.
  unfold unloaded, Map_has.
  rewrite andb_true_iff, !negb_true_iff, !bool_decide_eq_false. done.
Qed.

(** *** [getRandomIndices] *)

Lemma getRandomIndices_loop_spec (randomIdx : nat → nat) (max count i : nat)
    (available l : list nat) :
  NoDup available → NoDup l →
  (∀ x, x ∈ available → x < max ∧ x ∉ l) →
  (∀ x, x ∈ l → x < max) →
  count ≤ length available →
  (∀ j, j < count → randomIdx (i + j) < length available - j) →
  ∃ l', getRandomIndices_loop randomIdx i count available (Some <$> l) = Some <$> l'
        ∧ length l' = length l + count ∧ NoDup l' ∧ ∀ x, x ∈ l' → x < max.
Proof.
  revert i available l.
  induction count as [|count IH]; intros i available l Ha Hl Hav Hlt Hc Hr; simpl.
  { exists l. split; [done |]. split; [lia | done]. }
  assert (randomIdx i < length available) as Hri.
  { specialize (Hr 0). rewrite Nat.add_0_r in Hr. specialize (Hr ltac:(lia)). lia. }
  destruct (lookup_lt_is_Some_2 available (randomIdx i) Hri) as [x Hx].
  rewrite Hx.
  assert (x ∈ available) as Hxin by (by eapply list_elem_of_lookup_2).
  destruct (Hav x Hxin) as [Hxm Hxl].
  replace (fmap (M:=list) Some l ++ [Some x]) with (Some <$> (l ++ [x]))
    by (by rewrite fmap_app).
  assert (∀ y, y ∈ delete (randomIdx i) available → y ∈ available ∧ y ≠ x) as Hdel.
  { intros y Hy. split.
    - by eapply elem_of_sublist; [| apply sublist_delete].
    - intros ->. eapply list_elem_of_lookup in Hy as [j Hj].
      destruct (decide (j < randomIdx i)).
      + rewrite list_lookup_delete_lt in Hj by done.
        pose proof (NoDup_lookup _ _ _ _ Ha Hj Hx). lia.
      + rewrite list_lookup_delete_ge in Hj by lia.
        pose proof (NoDup_lookup _ _ _ _ Ha Hj Hx). lia. }
  destruct (IH (S i) (delete (randomIdx i) available) (l ++ [x])) as (l' & E & Hlen & Hnd & Hb).
  - apply (sublist_NoDup _ available); [exact Ha | apply sublist_delete].
  - apply NoDup_app. split; [done |]. split; [| apply NoDup_singleton].
    intros y Hy Hy'. apply list_elem_of_singleton in Hy' as ->. done.
  - intros y Hy. destruct (Hdel y Hy) as [Hyin Hne]. destruct (Hav y Hyin) as [? ?].
    split; [done |]. rewrite elem_of_app, list_elem_of_singleton. intros [? | ?]; done.
  - intros y Hy. apply elem_of_app in Hy as [Hy | Hy]; [by apply Hlt |].
    by apply list_elem_of_singleton in Hy as ->.
  - rewrite length_delete by (by eexists). lia.
  - intros j Hj. rewrite length_delete by (by eexists).
    specialize (Hr (S j) ltac:(lia)). replace (S i + j) with (i + S j) by lia. lia.
  - exists l'. split; [done |]. rewrite length_app in Hlen. simpl in Hlen.
    split; [lia | done].
Qed.

Lemma getRandomIndices_loop_range (randomIdx : nat → nat) (max count i : nat)
    (available : list nat) (indices : list (option nat)) :
  (∀ x, x ∈ available → x < max) →
  (∀ x, Some x ∈ indices → x < max) →
  ∀ x, Some x ∈ getRandomIndices_loop randomIdx i count available indices → x < max.
Proof.
  revert i available indices.
  induction count as [|count IH]; intros i available indices Hav Hin x; simpl; [apply Hin |].
  apply IH.
  - intros y Hy. apply Hav. eapply elem_of_sublist; [done | apply sublist_delete].
  - intros y Hy. apply elem_of_app in Hy as [Hy | Hy]; [by apply Hin |].
    apply list_elem_of_singleton in Hy. apply Hav. by eapply list_elem_of_lookup_2.
Qed.

(** X9.  [getRandomIndices(max, count)] with [count <= max], every draw
    falling inside [available], returns [count] indices, none
    [undefined], pairwise distinct and all below [max]. *)
Theorem getRandomIndices_distinct (randomIdx : nat → nat) (max count : nat) :
  count ≤ max →
  (∀ j, j < count → randomIdx j < max - j) →
  ∃ l, getRandomIndices randomIdx max count = Some <$> l
       ∧ length l = count ∧ NoDup l ∧ ∀ x, x ∈ l → x < max.
Proof.
  intros Hc Hr. unfold getRandomIndices.
  destruct (getRandomIndices_loop_spec randomIdx max count 0 (seq 0 max) [])
    as (l & E & Hlen & Hnd & Hb).
  - apply NoDup_seq.
  - apply NoDup_nil_2.
  - intros x Hx. apply elem_of_seq in Hx. split; [lia | apply not_elem_of_nil].
  - intros x Hx. by apply elem_of_nil in Hx.
  - by rewrite length_seq.
  - intros j Hj. rewrite length_seq. by apply Hr.
  - exists l. done.
Qed.

Lemma getRandomIndices_distinct_example :
  ∃ l, getRandomIndices (λ _, 0) 128 10 = Some <$> l
       ∧ length l = 10 ∧ NoDup l ∧ ∀ x, x ∈ l → x < 128.
Proof.
  apply (getRandomIndices_distinct (λ _, 0) 128 10); [lia |].
  intros j Hj. lia.
Defined.

(** *** The invariant *)

Local Ltac fields :=
  cbn [totalCount initialLoadCount loadedAudios pendingQueue loading].

Lemma totalCount_loadAudio (i : nat) (s : VoiceLoader) :
  totalCount (loadAudio i s) = totalCount s.
Proof.
  unfold loadAudio.
  by destruct (Map_has i (loadedAudios s) || bool_decide (i ∈ loading s)).
Qed.

Lemma loadedAudios_loadAudio (i : nat) (s : VoiceLoader) :
  loadedAudios (loadAudio i s) = loadedAudios s.
Proof.
  unfold loadAudio.
  by destruct (Map_has i (loadedAudios s) || bool_decide (i ∈ loading s)).
Qed.

Lemma pendingQueue_loadAudio (i : nat) (s : VoiceLoader) :
  pendingQueue (loadAudio i s) = pendingQueue s.
Proof.
  unfold loadAudio.
  by destruct (Map_has i (loadedAudios s) || bool_decide (i ∈ loading s)).
Qed.

Lemma voice_inv_loadAudio (i : nat) (s : VoiceLoader) :
  voice_inv s → i < totalCount s → voice_inv (loadAudio i s).
Proof.
  intros [Hk Hq Hql Hl Hr1 Hr2] Hi. unfold loadAudio.
  destruct (Map_has i (loadedAudios s) || bool_decide (i ∈ loading s)) eqn:E; [done |].
  apply orb_false_iff in E as [E1 E2].
  apply bool_decide_eq_false in E1, E2.
  split; fields; try done.
  - intros j Hj. apply elem_of_union in Hj as [Hj | Hj]; [| by apply Hl].
    apply elem_of_singleton in Hj as ->. done.
  - intros j Hj. apply elem_of_union in Hj as [Hj | Hj]; [| by apply Hr2].
    apply elem_of_singleton in Hj as ->. done.
Qed.

Lemma voice_inv_decoded (i : nat) (b : AudioBuffer) (s : VoiceLoader) :
  voice_inv s → voice_inv (loadAudio_decoded i b s).
Proof.
  intros [Hk Hq Hql Hl Hr1 Hr2]. unfold loadAudio_decoded.
  case_bool_decide as Hi; [| done].
  pose proof (Hl i Hi) as Hfresh.
  split; fields; rewrite ?(Map_keys_set_new i b _ Hfresh).
  - apply NoDup_app. split; [done |]. split; [| apply NoDup_singleton].
    intros j Hj Hj'. apply list_elem_of_singleton in Hj' as ->. done.
  - apply NoDup_app. split; [done |]. split; [| apply NoDup_singleton].
    intros j Hj Hj'. apply list_elem_of_singleton in Hj' as ->. by apply Hfresh, Hql.
  - intros j Hj. rewrite elem_of_app. apply elem_of_app in Hj as [Hj | Hj]; [left; by apply Hql | by right].
  - intros j Hj. apply elem_of_difference in Hj as [Hj Hne].
    rewrite elem_of_app, list_elem_of_singleton. intros [H | ->].
    + by apply (Hl j).
    + apply Hne. by apply elem_of_singleton.
  - intros j Hj. apply elem_of_app in Hj as [Hj | Hj]; [by apply Hr1 |].
    apply list_elem_of_singleton in Hj as ->. by apply Hr2.
  - intros j Hj. apply elem_of_difference in Hj as [Hj _]. by apply Hr2.
Qed.

Lemma voice_inv_failed (i : nat) (s : VoiceLoader) :
  voice_inv s → voice_inv (loadAudio_failed i s).
Proof.
  intros [Hk Hq Hql Hl Hr1 Hr2]. unfold loadAudio_failed.
  case_bool_decide as Hi; [| done].
  split; fields; try done.
  - intros j Hj. apply elem_of_difference in Hj as [Hj _]. by apply Hl.
  - intros j Hj. apply elem_of_difference in Hj as [Hj _]. by apply Hr2.
Qed.

Lemma tryLoadNextAudio_cases (s : VoiceLoader) :
  tryLoadNextAudio s = s
  ∨ ∃ i, i < totalCount s ∧ unloaded s i = true ∧ tryLoadNextAudio s = loadAudio i s.
Proof.
  unfold tryLoadNextAudio. case_decide; [by left |].
  destruct (filter _ _) as [|i l] eqn:E; [by left |].
  right. exists i.
  assert (i ∈ filter (λ i, unloaded s i = true) (seq 0 (totalCount s))) as Hi
    by (rewrite E; left).
  apply list_elem_of_filter in Hi as [Hu Hi]. apply elem_of_seq in Hi.
  split; [lia | done].
Qed.

Lemma voice_inv_tryLoadNextAudio (s : VoiceLoader) :
  voice_inv s → voice_inv (tryLoadNextAudio s).
Proof.
  intros Hinv. destruct (tryLoadNextAudio_cases s) as [-> | (i & Hi & _ & ->)]; [done |].
  by apply voice_inv_loadAudio.
Qed.

Lemma voice_inv_refillQueue (s : VoiceLoader) :
  voice_inv s → voice_inv (refillQueue s).
Proof.
  intros [Hk Hq Hql Hl Hr1 Hr2]. unfold refillQueue. case_decide; [done |].
  split; fields; done.
Qed.

Lemma voice_inv_consumeAudio (r : nat) (s : VoiceLoader) :
  voice_inv s → voice_inv (consumeAudio r s).2.
Proof.
  intros Hinv. unfold consumeAudio.
  set (s1 := if decide (length (pendingQueue s) = 0) then refillQueue s else s).
  assert (voice_inv s1) as H1.
  { subst s1. case_decide; [by apply voice_inv_refillQueue | done]. }
  case_decide; [done |]. cbn [snd].
  apply voice_inv_tryLoadNextAudio.
  destruct H1 as [Hk Hq Hql Hl Hr1 Hr2]. split; fields; try done.
  - apply (sublist_NoDup _ (pendingQueue s1)); [done | apply sublist_delete].
  - intros j Hj. apply Hql. by eapply elem_of_sublist; [| apply sublist_delete].
Qed.

Lemma voice_inv_step (e : VoiceEvent) (s : VoiceLoader) :
  voice_inv s → voice_inv (step e s).
Proof.
  destruct e; cbn [step];
    [apply voice_inv_consumeAudio | apply voice_inv_decoded | apply voice_inv_failed].
Qed.

Lemma voice_inv_run (evs : list VoiceEvent) (s : VoiceLoader) :
  voice_inv s → voice_inv (run evs s).
Proof.
  revert s. induction evs as [|e evs IH]; intros s H; [done |].
  apply IH. by apply voice_inv_step.
Qed.

Lemma totalCount_step (e : VoiceEvent) (s : VoiceLoader) :
  totalCount (step e s) = totalCount s.
Proof.
  destruct e as [r | i b | i]; cbn [step].
  - unfold consumeAudio.
    set (s1 := if decide (length (pendingQueue s) = 0) then refillQueue s else s).
    assert (totalCount s1 = totalCount s) as H1.
    { subst s1. case_decide; [| done]. unfold refillQueue. by case_decide. }
    case_decide; [done |]. cbn [snd].
    destruct (tryLoadNextAudio_cases
                {| totalCount := totalCount s1; initialLoadCount := initialLoadCount s1;
                   loadedAudios := loadedAudios s1;
                   pendingQueue := delete r (pendingQueue s1);
                   loading := loading s1 |}) as [-> | (i & _ & _ & ->)]; [done |].
    by rewrite totalCount_loadAudio.
  - unfold loadAudio_decoded. by case_bool_decide.
  - unfold loadAudio_failed. by case_bool_decide.
Qed.

Lemma totalCount_run (evs : list VoiceEvent) (s : VoiceLoader) :
  totalCount (run evs s) = totalCount s.
Proof.
  revert s. induction evs as [|e evs IH]; intros s; [done |].
  cbn. unfold run in IH. by rewrite IH, totalCount_step.
Qed.

Lemma voice_inv_starts (l : list (option nat)) (s : VoiceLoader) :
  voice_inv s → (∀ i, Some i ∈ l → i < totalCount s) →
  voice_inv (foldl (λ s index, match index with Some i => loadAudio i s | None => s end) s l)
  ∧ totalCount (foldl (λ s index, match index with Some i => loadAudio i s | None => s end) s l)
    = totalCount s.
Proof.
  revert s. induction l as [|[i|] l IH]; intros s Hinv Hl; [done | |].
  - cbn [foldl]. destruct (IH (loadAudio i s)) as [H1 H2].
    + apply voice_inv_loadAudio; [done |]. apply Hl. left.
    + intros j Hj. rewrite totalCount_loadAudio. apply Hl. by right.
    + split; [done |]. by rewrite H2, totalCount_loadAudio.
  - cbn [foldl]. apply IH; [done |]. intros j Hj. apply Hl. by right.
Qed.

Lemma voice_inv_new (total initial : nat) (randomIdx : nat → nat) :
  voice_inv (new total initial randomIdx)
  ∧ totalCount (new total initial randomIdx) = total.
Proof.
  unfold new. apply voice_inv_starts.
  - split; fields; try done; try apply NoDup_nil_2;
      intros i Hi; by first [apply elem_of_nil in Hi | apply elem_of_empty in Hi].
  - cbn. intros i Hi.
    eapply (getRandomIndices_loop_range randomIdx total _ 0 (seq 0 total) []); [| | exact Hi].
    + intros x Hx. apply elem_of_seq in Hx. lia.
    + intros x Hx. by apply elem_of_nil in Hx.
Qed.

Lemma voice_reachable (total initial : nat) (randomIdx : nat → nat)
    (evs : list VoiceEvent) :
  voice_inv (run evs (new total initial randomIdx))
  ∧ totalCount (run evs (new total initial randomIdx)) = total.
Proof.
  destruct (voice_inv_new total initial randomIdx) as [H1 H2].
  split; [by apply voice_inv_run | by rewrite totalCount_run].
Qed.

Lemma NoDup_below_length (l : list nat) (n : nat) :
  NoDup l → (∀ x, x ∈ l → x < n) → length l ≤ n.
Proof.
  intros Hnd Hlt. rewrite <- (length_seq n 0). apply submseteq_length.
  apply NoDup_submseteq; [done |]. intros x Hx. apply elem_of_seq.
  specialize (Hlt x Hx). lia.
Qed.

(** X10.  At every point of every trace of a voice loader: no more than
    [totalCount] audios are loaded or being loaded, taken together; the
    queue holds distinct indices, each of an audio that is loaded, so it
    is no longer than the cache; and no index is at once loaded and
    being loaded. *)
Theorem voice_loader_counts_are_bounded
    (total initial : nat) (randomIdx : nat → nat) (evs : list VoiceEvent) :
  let s := run evs (new total initial randomIdx) in
  getLoadedCount s + size (loading s) ≤ total
  ∧ getPendingCount s ≤ getLoadedCount s
  ∧ NoDup (pendingQueue s)
  ∧ (∀ i, i ∈ pendingQueue s → is_Some (Map_get i (loadedAudios s)))
  ∧ (∀ i, i ∈ loading s → Map_has i (loadedAudios s) = false).
Proof.
  intros s. destruct (voice_reachable total initial randomIdx evs) as [Hinv Ht].
  fold s in Hinv, Ht. destruct Hinv as [Hk Hq Hql Hl Hr1 Hr2].
  split; [| split; [| split; [done | split]]].
  - unfold getLoadedCount, size, set_size. cbn.
    rewrite <- (length_fmap fst (loadedAudios s)), <- length_app, <- Ht.
    apply NoDup_below_length.
    + apply NoDup_app. split; [exact Hk |]. split; [| apply NoDup_elements].
      intros i Hi Hi'. apply elem_of_elements in Hi'. by apply (Hl i).
    + intros i Hi. apply elem_of_app in Hi as [Hi | Hi]; [by apply Hr1 |].
      apply elem_of_elements in Hi. by apply Hr2.
  - unfold getPendingCount, getLoadedCount.
    rewrite <- (length_fmap fst (loadedAudios s)). apply submseteq_length.
    by apply NoDup_submseteq.
  - intros i Hi. destruct (Map_get_Some i (loadedAudios s) (Hql i Hi)) as (v & -> & _).
    by eexists.
  - intros i Hi. unfold Map_has. apply bool_decide_eq_false. by apply Hl.
Qed.

(** X11.  When something is loaded, [consumeAudio()] returns an audio
    of the cache, whose index is then out of the queue (it is not played
    again before the queue has run empty and is refilled); the cache
    itself is not changed by the call. *)
Theorem consumeAudio_plays_a_loaded_audio
    (total initial : nat) (randomIdx : nat → nat) (evs : list VoiceEvent) (r : nat) :
  let s := run evs (new total initial randomIdx) in
  loadedAudios s ≠ [] →
  r < length (if decide (length (pendingQueue s) = 0)
              then Map_keys (loadedAudios s) else pendingQueue s) →
  ∃ i b, (consumeAudio r s).1 = Some b
         ∧ (i, b) ∈ loadedAudios s
         ∧ (i ∉ pendingQueue (consumeAudio r s).2)
         ∧ loadedAudios (consumeAudio r s).2 = loadedAudios s.
Proof.
  intros s Hne Hr. destruct (voice_reachable total initial randomIdx evs) as [Hinv _].
  fold s in Hinv. unfold consumeAudio.
  set (s1 := if decide (length (pendingQueue s) = 0) then refillQueue s else s).
  assert (voice_inv s1 ∧ loadedAudios s1 = loadedAudios s ∧ r < length (pendingQueue s1))
    as (H1 & E1 & Hr1).
  { subst s1. case_decide as Hq.
    - split; [by apply voice_inv_refillQueue |]. unfold refillQueue.
      case_decide as Hz; [by destruct (loadedAudios s) |]. done.
    - done. }
  clearbody s1. rewrite decide_False by lia. cbn [fst snd].
  destruct (lookup_lt_is_Some_2 _ _ Hr1) as [i Hi]. rewrite Hi. cbn.
  assert (i ∈ pendingQueue s1) as Hin by (by eapply list_elem_of_lookup_2).
  destruct (Map_get_Some i (loadedAudios s1) (vinv_queue_loaded s1 H1 i Hin)) as (b & Hb & Hib).
  exists i, b. rewrite Hb. split; [done |]. split; [by rewrite <- E1 |].
  set (s2 := {| totalCount := totalCount s1; initialLoadCount := initialLoadCount s1;
                loadedAudios := loadedAudios s1;
                pendingQueue := delete r (pendingQueue s1);
                loading := loading s1 |}).
  assert (pendingQueue (tryLoadNextAudio s2) = delete r (pendingQueue s1)
          ∧ loadedAudios (tryLoadNextAudio s2) = loadedAudios s1) as [-> ->].
  { destruct (tryLoadNextAudio_cases s2) as [-> | (j & _ & _ & ->)]; [done |].
    by rewrite pendingQueue_loadAudio, loadedAudios_loadAudio. }
  split; [| done].
  intros Hd. apply list_elem_of_lookup in Hd as [j Hj].
  pose proof (vinv_queue s1 H1) as Hnd.
  destruct (decide (j < r)).
  - rewrite list_lookup_delete_lt in Hj by done.
    pose proof (NoDup_lookup _ _ _ _ Hnd Hj Hi). lia.
  - rewrite list_lookup_delete_ge in Hj by lia.
    pose proof (NoDup_lookup _ _ _ _ Hnd Hj Hi). lia.
Qed.

Lemma consumeAudio_plays_a_loaded_audio_example :
  let s := run [Decoded 0 voice_a] (new 3 2 (λ _, 0)) in
  ∃ i b, (consumeAudio 0 s).1 = Some b
         ∧ (i, b) ∈ loadedAudios s
         ∧ (i ∉ pendingQueue (consumeAudio 0 s).2)
         ∧ loadedAudios (consumeAudio 0 s).2 = loadedAudios s.
Proof.
  apply (consumeAudio_plays_a_loaded_audio 3 2 (λ _, 0) [Decoded 0 voice_a] 0).
  - by vm_compute.
  - vm_compute. lia.
Defined.

(** X12.  While nothing is loaded [consumeAudio()] returns [null] and
    does nothing: it starts no load.  So a loader with nothing loaded
    and no load under way (all the loads of the constructor have
    failed, say) stays as it is however often [consumeAudio()] is
    called. *)
Theorem silent_loader_stays_silent
    (total initial : nat) (randomIdx : nat → nat) (evs cs : list VoiceEvent) (r : nat) :
  let s := run evs (new total initial randomIdx) in
  loadedAudios s = [] →
  consumeAudio r s = (None, s)
  ∧ (Forall is_Consume cs → run cs s = s).
Proof.
  intros s He. destruct (voice_reachable total initial randomIdx evs) as [Hinv _].
  fold s in Hinv.
  assert (pendingQueue s = []) as Hq.
  { destruct (pendingQueue s) as [|i q] eqn:E; [done |].
    assert (i ∈ Map_keys (loadedAudios s)) as Hi.
    { apply (vinv_queue_loaded s Hinv). rewrite E. left. }
    rewrite He in Hi. by apply elem_of_nil in Hi. }
  assert (∀ r', consumeAudio r' s = (None, s)) as Hc.
  { intros r'. unfold consumeAudio, refillQueue. rewrite Hq, He. cbn [length].
    rewrite !(decide_True (P := 0 = 0)) by done. rewrite Hq. cbn [length].
    by rewrite decide_True. }
  split; [apply Hc |]. clearbody s.
  induction cs as [|c cs IH]; intros Hcs; [done |].
  apply Forall_cons in Hcs as [Hc1 Hcs]. destruct c as [r' | |]; try done.
  cbn. rewrite Hc. cbn. by apply IH.
Qed.

Lemma silent_loader_stays_silent_example :
  let s := run [Failed 0; Failed 1] (new 3 2 (λ _, 0)) in
  consumeAudio 0 s = (None, s) ∧ run [Consume 0; Consume 5] s = s.
Proof.
  intros s.
  destruct (silent_loader_stays_silent 3 2 (λ _, 0) [Failed 0; Failed 1]
              [Consume 0; Consume 5] 0) as [H1 H2].
  - vm_compute. reflexivity.
  - split; [exact H1 |]. apply H2. by repeat constructor.
Defined.

(** X13.  Once all [totalCount] audios are loaded, no load is under way
    and [consumeAudio()] starts none: it only takes an index out of the
    queue. *)
Theorem fully_loaded_loader_stops_loading
    (total initial : nat) (randomIdx : nat → nat) (evs : list VoiceEvent) (r : nat) :
  let s := run evs (new total initial randomIdx) in
  getLoadedCount s = total →
  loading s = ∅
  ∧ loading (consumeAudio r s).2 = ∅
  ∧ loadedAudios (consumeAudio r s).2 = loadedAudios s.
Proof.
  intros s Hfull.
  destruct (voice_reachable total initial randomIdx evs) as [Hinv Ht]. fold s in Hinv, Ht.
  assert (loading s = ∅) as Hl.
  { apply set_eq. intros i. split; [| by intros ?%elem_of_empty].
    intros Hi. exfalso.
    pose proof (vinv_loading s Hinv i Hi) as Hni.
    pose proof (vinv_loading_range s Hinv i Hi) as Hlt.
    assert (Map_keys (loadedAudios s) ≡ₚ seq 0 total) as Hp.
    { apply submseteq_length_Permutation.
      - apply NoDup_submseteq; [apply (vinv_keys s Hinv) |].
        intros x Hx. apply elem_of_seq. pose proof (vinv_loaded_range s Hinv x Hx). lia.
      - rewrite length_seq. unfold Map_keys. rewrite length_fmap. unfold getLoadedCount in Hfull. lia. }
    apply Hni. rewrite Hp. apply elem_of_seq. lia. }
  split; [done |]. unfold consumeAudio.
  set (s1 := if decide (length (pendingQueue s) = 0) then refillQueue s else s).
  assert (loading s1 = ∅ ∧ loadedAudios s1 = loadedAudios s ∧ totalCount s1 = total)
    as (L1 & E1 & T1).
  { subst s1. case_decide; [| done]. unfold refillQueue. by case_decide. }
  clearbody s1. case_decide; [done |]. cbn [snd].
  unfold tryLoadNextAudio. cbn. rewrite decide_True; [done |].
  rewrite T1, E1. unfold getLoadedCount in Hfull. lia.
Qed.

Lemma fully_loaded_loader_stops_loading_example :
  let s := run [Decoded 1 voice_a; Decoded 0 voice_a] (new 2 5 (λ _, 0)) in
  loading s = ∅
  ∧ loading (consumeAudio 1 s).2 = ∅
  ∧ loadedAudios (consumeAudio 1 s).2 = loadedAudios s.
Proof.
  apply (fully_loaded_loader_stops_loading 2 5 (λ _, 0)
           [Decoded 1 voice_a; Decoded 0 voice_a] 1).
  vm_compute. reflexivity.
Defined.

Lemma loadAudio_fresh (i : nat) (s : VoiceLoader) :
  loadedAudios s = [] → i ∉ loading s →
  loading (loadAudio i s) = {[i]} ∪ loading s.
Proof.
  intros He Hi. unfold loadAudio, Map_has. rewrite He.
  rewrite bool_decide_eq_false_2 by apply not_elem_of_nil.
  by rewrite bool_decide_eq_false_2.
Qed.

Lemma starts_all (l : list nat) (s : VoiceLoader) :
  NoDup l → (∀ i, i ∈ l → i ∉ loading s) → loadedAudios s = [] →
  let s' := foldl (λ s index, match index with Some i => loadAudio i s | None => s end)
                  s (Some <$> l) in
  loading s' = list_to_set l ∪ loading s
  ∧ loadedAudios s' = [] ∧ pendingQueue s' = pendingQueue s.
Proof.
  revert s. induction l as [|i l IH]; intros s Hnd Hl He; cbn [fmap list_fmap foldl].
  { split; [| done]. cbn [list_to_set]. by rewrite union_empty_l_L. }
  apply NoDup_cons in Hnd as [Hi Hnd].
  destruct (IH (loadAudio i s)) as (H1 & H2 & H3).
  - done.
  - intros j Hj. rewrite loadAudio_fresh; [| done | apply Hl; left].
    rewrite not_elem_of_union, not_elem_of_singleton.
    split; [by intros -> | apply Hl; by right].
  - by rewrite loadedAudios_loadAudio.
  - split; [| split; [done | by rewrite H3, pendingQueue_loadAudio]].
    rewrite H1, loadAudio_fresh; [| done | apply Hl; left].
    rewrite list_to_set_cons.
    by rewrite (comm_L (∪) {[i]} (list_to_set l)), <- (assoc_L (∪)).
Qed.

(** X16.  With every draw falling inside [available], the constructor
    starts [min(initialLoadCount, totalCount)] loads, of pairwise
    distinct indices, and leaves the cache and the queue empty. *)
Theorem constructor_starts_initial_loads
    (total initial : nat) (randomIdx : nat → nat) :
  (∀ j, j < initial `min` total → randomIdx j < total - j) →
  let s := new total initial randomIdx in
  size (loading s) = initial `min` total
  ∧ loadedAudios s = [] ∧ pendingQueue s = [].
Proof.
  intros Hr s.
  destruct (getRandomIndices_distinct randomIdx total (initial `min` total))
    as (l & E & Hlen & Hnd & _); [lia | done |].
  subst s. unfold new. rewrite E.
  set (s0 := {| totalCount := total; initialLoadCount := initial `min` total;
                loadedAudios := []; pendingQueue := []; loading := ∅ |}).
  destruct (starts_all l s0 Hnd) as (H1 & H2 & H3);
    [intros i _; apply not_elem_of_empty | done |].
  split; [| done].
  rewrite H1. cbn [loading s0]. rewrite union_empty_r_L, size_list_to_set by done. done.
Qed.

Lemma constructor_starts_initial_loads_example :
  let s := new VOICE_TOTAL_COUNT VOICE_INITIAL_LOAD (λ j, 2 * j) in
  size (loading s) = VOICE_INITIAL_LOAD `min` VOICE_TOTAL_COUNT
  ∧ loadedAudios s = [] ∧ pendingQueue s = [].
Proof.
  apply (constructor_starts_initial_loads VOICE_TOTAL_COUNT VOICE_INITIAL_LOAD (λ j, 2 * j)).
  unfold VOICE_TOTAL_COUNT, VOICE_INITIAL_LOAD. intros j Hj. lia.
Defined.

End voice.
